(** * SM2 signatures (package sm2): a shallow embedding of sm2.go

    The Go code works on [*big.Int] values, byte slices, an [io.Reader]
    and an [elliptic.Curve]. Integers are modelled as [Z], byte slices
    as [list byte], the reader as an explicit state, a run-time panic
    as an outcome of its own, and the curve as a record of operations
    (the Go interface). *)

From Stdlib Require Import String ZArith List Bool Lia Zcong Zdivisibility Morphisms Setoid.
From Stdlib Require Strings.Byte.

Abbreviation byte := Byte.byte.
Import ListNotations.

#[local] Open Scope Z_scope.

(** ** Outcomes of a Go call

    A call either returns normally, returns a non-nil [error], or
    panics (nil dereference, division by zero, negative [make]). *)

Definition error := string.

Inductive outcome (A : Type) : Type :=
| Ok (a : A)
| Err (e : error)
| Panic (why : string).

Arguments Ok {A} a.
Arguments Err {A} e.
Arguments Panic {A} why.

Definition bind {A B : Type} (m : outcome A) (k : A -> outcome B) : outcome B :=
  match m with
  | Ok a => k a
  | Err e => Err e
  | Panic w => Panic w
  end.

Notation "x <- m ;; k" := (bind m (fun x => k))
  (at level 61, m at next level, right associativity).

Definition nilDeref : string := "invalid memory address or nil pointer dereference"%string.
Definition divByZero : string := "division by zero"%string.
Definition makeNegative : string := "makeslice: len out of range"%string.

(** ** Bytes *)

Definition byte_val (b : byte) : Z := Z.of_N (Byte.to_N b).

Definition byte_of (z : Z) : byte :=
  match Byte.of_N (Z.to_N (z mod 256)) with
  | Some b => b
  | None => Byte.x00
  end.

(** ** math/big, the operations sm2.go calls *)

Module big.

(** [SetBytes]: the slice read as a big-endian unsigned integer. *)
Definition SetBytes (buf : list byte) : Z :=
  fold_left (fun acc b => acc * 256 + byte_val b) buf 0.

(** Little-endian base-256 digits of a non-negative integer. *)
Fixpoint digits (fuel : nat) (z : Z) : list byte :=
  match fuel with
  | O => []
  | S fuel' =>
      if z =? 0 then [] else byte_of z :: digits fuel' (z / 256)
  end.

(** [Bytes]: the absolute value as a big-endian slice without
    leading zero bytes (the empty slice for 0). *)
Definition Bytes (x : Z) : list byte :=
  rev (digits (S (Z.to_nat (Z.log2 (Z.abs x)))) (Z.abs x)).

(** [x.Bytes()] through a pointer that may be nil. *)
Definition Bytes_ptr (x : option Z) : outcome (list byte) :=
  match x with
  | Some v => Ok (Bytes v)
  | None => Panic nilDeref
  end.

(** Reading the value behind a pointer that may be nil. *)
Definition deref (x : option Z) : outcome Z :=
  match x with
  | Some v => Ok v
  | None => Panic nilDeref
  end.

Definition Sign (x : Z) : Z := Z.sgn x.

Definition Cmp (x y : Z) : Z :=
  match x ?= y with
  | Lt => -1
  | Eq => 0
  | Gt => 1
  end.

(** [Mod]: Euclidean modulus, a panic for a zero modulus. *)
Definition Mod (x y : Z) : outcome Z :=
  if y =? 0 then Panic divByZero else Ok (x mod Z.abs y).

(** [z.ModInverse(g, n)]: the new value of [z]. When [g] and [n] are
    coprime it is the inverse of [g] in [0, |n|); otherwise [z] is
    left unchanged (and the call returns nil, which Sign ignores). *)
Definition ModInverse (z g n : Z) : Z :=
  let n := Z.abs n in
  let g := if g <? 0 then g mod n else g in
  if Z.gcd g n =? 1 then Z.invmod g n else z.

End big.

(** ** io.Reader, as used through io.ReadFull *)

Module io.

(** A source of bytes: a finite stream that is consumed, or the
    [zr] reader of sm2.go, which fills any buffer with zeros. *)
Inductive Reader : Type :=
| Stream (pending : list byte)
| zr.

Definition ErrUnexpectedEOF : error := "unexpected EOF"%string.

(** [io.ReadFull(rand, b)] with [len(b) = n]: the filled buffer, or
    an error when the source ends first; and the source afterwards. *)
Definition ReadFull (rand : Reader) (n : nat) : outcome (list byte) * Reader :=
  match rand with
  | zr => (Ok (repeat Byte.x00 n), zr)
  | Stream pending =>
      if (n <=? length pending)%nat
      then (Ok (firstn n pending), Stream (skipn n pending))
      else (Err ErrUnexpectedEOF, Stream [])
  end.

End io.

(** ** crypto/elliptic: the Curve interface *)

Module elliptic.

Record CurveParams : Type := {
  P : Z;
  N : Z;
  B : Z;
  Gx : Z;
  Gy : Z;
  BitSize : Z
}.

Record Curve : Type := {
  Params : CurveParams;
  IsOnCurve : Z -> Z -> bool;
  Add : Z -> Z -> Z -> Z -> Z * Z;
  Double : Z -> Z -> Z * Z;
  ScalarMult : Z -> Z -> list byte -> Z * Z;
  ScalarBaseMult : list byte -> Z * Z
}.

End elliptic.

(** ** Package sm2 *)

Record PublicKey : Type := {
  Curve : elliptic.Curve;
  X : Z;
  Y : Z
}.

Record PrivateKey : Type := {
  Public : PublicKey;
  D : Z
}.

Record sm2Signature : Type := {
  R : Z;
  S : Z
}.

Definition one : Z := 1.

Definition zeroReader : io.Reader := io.zr.

(** [make([]byte, n)] for a signed length. *)
Definition make_len (n : Z) : outcome nat :=
  if n <? 0 then Panic makeNegative else Ok (Z.to_nat n).

Definition randFieldElement (c : elliptic.Curve) (rand : io.Reader)
  : outcome Z * io.Reader :=
  let params := elliptic.Params c in
  match make_len (Z.quot (elliptic.BitSize params) 8 + 8) with
  | Ok len =>
      let '(b, rand') := io.ReadFull rand len in
      (b <- b ;;
       let k := big.SetBytes b in
       let n := elliptic.N params - one in
       k <- big.Mod k n ;;
       let k := k + one in
       Ok k, rand')
  | Err e => (Err e, rand)
  | Panic w => (Panic w, rand)
  end.

Section GenerateKey.

(** The curve constructor [P256Sm2()] lives in a file of the package
    that is not part of the sources at hand; key generation takes the
    curve it returns as a parameter. *)
Variable P256Sm2 : elliptic.Curve.

Definition GenerateKey (rand : io.Reader) : outcome PrivateKey * io.Reader :=
  let c := P256Sm2 in
  let '(k, rand') := randFieldElement c rand in
  (k <- k ;;
   let '(x, y) := elliptic.ScalarBaseMult c (big.Bytes k) in
   Ok {| Public := {| Curve := c; X := x; Y := y |}; D := k |}, rand').

End GenerateKey.

Definition errZeroParam : error := "zero parameter"%string.

(** The error of [io.ReadFull] is dropped here: the result is a nil
    pointer ([None]) when the read fails. *)
Definition generateRandK (rand : io.Reader) (c : elliptic.Curve)
  : outcome (option Z) * io.Reader :=
  let params := elliptic.Params c in
  match make_len (Z.quot (elliptic.BitSize params) 8 + 8) with
  | Ok len =>
      let '(b, rand') := io.ReadFull rand len in
      (match b with
       | Ok b =>
           let k := big.SetBytes b in
           let n := elliptic.N params - one in
           k <- big.Mod k n ;;
           let k := k + one in
           Ok (Some k)
       | Err _ => Ok None
       | Panic w => Panic w
       end, rand')
  | Err e => (Err e, rand)
  | Panic w => (Panic w, rand)
  end.

Definition errShortHash : error := "The length of hash has short than what SM2 need."%string.

Definition Sign (rand : io.Reader) (priv : PrivateKey) (hash : list byte)
  : outcome (Z * Z) * io.Reader :=
  let one := 1 in
  if (length hash <? 32)%nat then (Err errShortHash, rand)
  else
    let tmp := firstn 32 hash in
    let e := big.SetBytes tmp in
    let c := Curve (Public priv) in
    let '(k, rand') := generateRandK rand c in
    (k <- k ;;
     kb <- big.Bytes_ptr k ;;
     let '(x1, _) := elliptic.ScalarBaseMult c kb in
     let n := elliptic.N (elliptic.Params c) in
     let r := e + x1 in
     r <- big.Mod r n ;;
     let s1 := r * D priv in
     s1 <- big.Mod s1 n ;;
     k <- big.deref k ;;
     let s1 := k - s1 in
     s1 <- big.Mod s1 n ;;
     let s2 := one + D priv in
     s2 <- big.Mod s2 n ;;
     let s2 := big.ModInverse s2 s2 n in
     let s := s1 * s2 in
     s <- big.Mod s n ;;
     Ok (r, s), rand').

Definition Verify (pub : PublicKey) (hash : list byte) (r s : Z) : outcome bool :=
  let c := Curve pub in
  let N := elliptic.N (elliptic.Params c) in
  if (big.Sign r <=? 0) || (big.Sign s <=? 0) then Ok false
  else if (big.Cmp r N >=? 0) || (big.Cmp s N >=? 0) then Ok false
  else
    let n := elliptic.N (elliptic.Params c) in
    let e := big.SetBytes hash in
    let t := r + s in
    let '(x11, y11) := elliptic.ScalarMult c (X pub) (Y pub) (big.Bytes t) in
    let '(x12, y12) := elliptic.ScalarBaseMult c (big.Bytes s) in
    let '(x1, _) := elliptic.Add c x11 y11 x12 y12 in
    let x := e + x1 in
    x <- big.Mod x n ;;
    Ok (big.Cmp x r =? 0).

(** ** The curve of the package

    Modelled from the spec: the curve implementation behind [P256Sm2()]
    (field arithmetic, affine point addition and doubling, double-and-add
    scalar multiplication, and the table of domain constants) is in a
    file of the package that is not among the sources. It is modelled
    from sections 3, 4.1, 4.2 and 6 of the specification: affine points
    over the prime field, special cases for the point at infinity, equal
    points and opposite points, and the constants of the standardized
    256-bit curve of the scheme. Through the Go interface a point is a
    pair of integers, and [(0, 0)] stands for the point at infinity. *)

Module weierstrass.

(** FieldArithmetic: the inverse by the extended Euclidean algorithm. *)
Fixpoint egcd (fuel : nat) (r0 u0 r1 u1 : Z) : Z :=
  match fuel with
  | O => u0
  | Datatypes.S fuel' =>
      if r1 =? 0 then u0
      else let q := r0 / r1 in egcd fuel' r1 u1 (r0 - q * r1) (u0 - q * u1)
  end.

Definition inverse (p x : Z) : Z :=
  (egcd (Datatypes.S (2 * Z.to_nat (Z.log2 p) + 2)) p 0 (x mod p) 1) mod p.

Definition add_mod (p x y : Z) : Z := (x + y) mod p.
Definition sub_mod (p x y : Z) : Z := (x - y) mod p.
Definition mul_mod (p x y : Z) : Z := (x * y) mod p.

Section Geometry.

(** Domain constants: prime [p], coefficients [a] and [b]. *)
Variables p a b : Z.

Definition infinity : Z * Z := (0, 0).

Definition isInfinity (x y : Z) : bool := (x =? 0) && (y =? 0).

Definition isOnCurve (x y : Z) : bool :=
  isInfinity x y ||
  (mul_mod p y y =?
   add_mod p (add_mod p (mul_mod p (mul_mod p x x) x) (mul_mod p a x)) (b mod p)).

Definition double (x1 y1 : Z) : Z * Z :=
  if isInfinity x1 y1 then infinity
  else if y1 mod p =? 0 then infinity
  else
    let l := mul_mod p (add_mod p (mul_mod p 3 (mul_mod p x1 x1)) a)
                       (inverse p (mul_mod p 2 y1)) in
    let x3 := sub_mod p (mul_mod p l l) (mul_mod p 2 x1) in
    let y3 := sub_mod p (mul_mod p l (sub_mod p x1 x3)) y1 in
    (x3, y3).

Definition add (x1 y1 x2 y2 : Z) : Z * Z :=
  if isInfinity x1 y1 then (x2, y2)
  else if isInfinity x2 y2 then (x1, y1)
  else if (x1 - x2) mod p =? 0 then
    if (y1 - y2) mod p =? 0 then double x1 y1 else infinity
  else
    let l := mul_mod p (sub_mod p y2 y1) (inverse p (sub_mod p x2 x1)) in
    let x3 := sub_mod p (sub_mod p (mul_mod p l l) x1) x2 in
    let y3 := sub_mod p (mul_mod p l (sub_mod p x1 x3)) y1 in
    (x3, y3).

(** One step of double-and-add, most significant bit first. *)
Definition bitStep (x1 y1 : Z) (bit : bool) (acc : Z * Z) : Z * Z :=
  let '(x, y) := double (fst acc) (snd acc) in
  if bit then add x y x1 y1 else (x, y).

Definition byteStep (x1 y1 : Z) (acc : Z * Z) (k : byte) : Z * Z :=
  fold_left (fun acc i => bitStep x1 y1 (Z.testbit (byte_val k) i) acc)
            [7; 6; 5; 4; 3; 2; 1; 0] acc.

Definition scalarMultiply (x1 y1 : Z) (k : list byte) : Z * Z :=
  fold_left (byteStep x1 y1) k infinity.

End Geometry.

(** The capability set of sections 4.2 and 9 as a Go curve. *)
Definition curve (a : Z) (params : elliptic.CurveParams) : elliptic.Curve :=
  let p := elliptic.P params in
  let b := elliptic.B params in
  {| elliptic.Params := params;
     elliptic.IsOnCurve := isOnCurve p a b;
     elliptic.Add := add p a;
     elliptic.Double := double p a;
     elliptic.ScalarMult := scalarMultiply p a;
     elliptic.ScalarBaseMult :=
       scalarMultiply p a (elliptic.Gx params) (elliptic.Gy params) |}.

End weierstrass.

(** Modelled from the spec: the compiled-in constant table of section 6
    (the package's own table is in the absent curve file), with the
    values of the standardized 256-bit curve of the scheme. *)
Definition sm2P256Params : elliptic.CurveParams :=
  {| elliptic.P := 0xFFFFFFFEFFFFFFFFFFFFFFFFFFFFFFFFFFFFFFFF00000000FFFFFFFFFFFFFFFF;
     elliptic.N := 0xFFFFFFFEFFFFFFFFFFFFFFFFFFFFFFFF7203DF6B21C6052B53BBF40939D54123;
     elliptic.B := 0x28E9FA9E9D9F5E344D5A9E4BCF6509A7F39789F515AB8F92DDBCBD414D940E93;
     elliptic.Gx := 0x32C4AE2C1F1981195F9904466A39C9948FE30BBFF2660BE1715A4589334C74C7;
     elliptic.Gy := 0xBC3736A2F4F6779C59BDCEE36B692153D0A9877CC62A474002DF32E52139F0A0;
     elliptic.BitSize := 256 |}.

(** Modelled from the spec: the curve returned by [P256Sm2()], whose
    source file is absent; coefficient [a = p - 3]. *)
Definition sm2P256 : elliptic.Curve :=
  weierstrass.curve (elliptic.P sm2P256Params - 3) sm2P256Params.


(** ** encoding/asn1, at the type [sm2Signature]

    [asn1.Marshal] and [asn1.Unmarshal] are generic over Go types; here
    they are written out for a struct of two [*big.Int] fields, which
    is a DER SEQUENCE of two INTEGERs. A slice with an offset is
    modelled as the list of the bytes from the offset on. *)

Module asn1.

Definition SyntaxError (msg : string) : error := ("asn1: syntax error: " ++ msg)%string.
Definition StructuralError (msg : string) : error := ("asn1: structure error: " ++ msg)%string.

Definition TagInteger : Z := 2.
Definition TagSequence : Z := 16.
Definition ClassUniversal : Z := 0.

Record tagAndLength : Type := {
  class : Z;
  tag : Z;
  length : nat;
  isCompound : bool
}.

(** *** Marshal *)

(** [appendLength]: short form below 128, else the count of length
    bytes with the top bit set, then the length in base 256. *)
Definition appendLength (i : nat) : list byte :=
  if (i <? 128)%nat then [byte_of (Z.of_nat i)]
  else
    let l := big.Bytes (Z.of_nat i) in
    byte_of (Z.lor 0x80 (Z.of_nat (List.length l))) :: l.

(** [appendTagAndLength] for a tag below 31. *)
Definition appendTagAndLength (t : tagAndLength) : list byte :=
  let b := Z.shiftl (class t) 6 in
  let b := if isCompound t then Z.lor b 0x20 else b in
  let b := Z.lor b (tag t) in
  byte_of b :: appendLength (length t).

Definition highBit (l : list byte) : bool :=
  match l with
  | [] => false
  | b :: _ => negb (Z.land (byte_val b) 0x80 =? 0)
  end.

(** [makeBigInt]: the contents of an INTEGER, minimal two's complement. *)
Definition makeBigInt (n : Z) : list byte :=
  if big.Sign n <? 0 then
    let nMinus1 := - n - 1 in
    let bytes := map (fun b => byte_of (Z.lxor (byte_val b) 0xff)) (big.Bytes nMinus1) in
    if (List.length bytes =? 0)%nat || negb (highBit bytes)
    then Byte.xff :: bytes
    else bytes
  else if big.Sign n =? 0 then [Byte.x00]
  else
    let bytes := big.Bytes n in
    if (0 <? List.length bytes)%nat && highBit bytes
    then Byte.x00 :: bytes
    else bytes.

Definition marshalBigInt (n : Z) : list byte :=
  let body := makeBigInt n in
  appendTagAndLength {| class := ClassUniversal; tag := TagInteger;
                        length := List.length body; isCompound := false |}
    ++ body.

Definition Marshal (val : sm2Signature) : outcome (list byte) :=
  let body := marshalBigInt (R val) ++ marshalBigInt (S val) in
  Ok (appendTagAndLength {| class := ClassUniversal; tag := TagSequence;
                            length := List.length body; isCompound := true |}
        ++ body).

(** *** Unmarshal *)

(** The loop over the bytes of a long-form length. *)
Fixpoint parseLongLength (numBytes : nat) (acc : Z) (bytes : list byte)
  : outcome (Z * list byte) :=
  match numBytes with
  | O => Ok (acc, bytes)
  | Datatypes.S numBytes' =>
      match bytes with
      | [] => Err (SyntaxError "truncated tag or length")
      | b :: rest =>
          if acc >=? Z.shiftl 1 23 then Err (StructuralError "length too large")
          else
            let acc := Z.lor (Z.shiftl acc 8) (byte_val b) in
            if acc =? 0
            then Err (StructuralError "superfluous leading zeros in length")
            else parseLongLength numBytes' acc rest
      end
  end.

(** [parseTagAndLength]: the header and the bytes after it. A long-form
    tag (low five bits all set) denotes a tag of at least 31 or is a
    syntax error; it never matches INTEGER or SEQUENCE, so every such
    input ends in an error. *)
Definition parseTagAndLength (bytes : list byte)
  : outcome (tagAndLength * list byte) :=
  match bytes with
  | [] => Err (SyntaxError "sequence truncated")
  | b :: rest =>
      let b := byte_val b in
      let cls := Z.shiftr b 6 in
      let cmp := Z.land b 0x20 =? 0x20 in
      let tg := Z.land b 0x1f in
      if tg =? 0x1f then Err (StructuralError "tags don't match")
      else
        match rest with
        | [] => Err (SyntaxError "truncated tag or length")
        | b :: rest =>
            let b := byte_val b in
            if Z.land b 0x80 =? 0 then
              Ok ({| class := cls; tag := tg;
                     length := Z.to_nat (Z.land b 0x7f); isCompound := cmp |}, rest)
            else
              let numBytes := Z.to_nat (Z.land b 0x7f) in
              if (numBytes =? 0)%nat
              then Err (SyntaxError "indefinite length found (not DER)")
              else
                r <- parseLongLength numBytes 0 rest ;;
                let '(len, rest) := r in
                if len <? 0x80 then Err (StructuralError "non-minimal length")
                else Ok ({| class := cls; tag := tg;
                            length := Z.to_nat len; isCompound := cmp |}, rest)
        end
  end.

(** The header of a field of universal type [expectedTag]; the result
    is the contents of the field and the bytes after it. *)
Definition parseHeader (expectedTag : Z) (compoundType : bool) (bytes : list byte)
  : outcome (list byte * list byte) :=
  r <- parseTagAndLength bytes ;;
  let '(t, rest) := r in
  if negb (class t =? ClassUniversal) || negb (tag t =? expectedTag)
     || negb (Bool.eqb (isCompound t) compoundType)
  then Err (StructuralError "tags don't match")
  else if (List.length rest <? length t)%nat
  then Err (SyntaxError "data truncated")
  else Ok (firstn (length t) rest, skipn (length t) rest).

Definition checkInteger (bytes : list byte) : outcome unit :=
  match bytes with
  | [] => Err (StructuralError "empty integer")
  | [_] => Ok tt
  | b0 :: b1 :: _ =>
      if ((byte_val b0 =? 0) && (Z.land (byte_val b1) 0x80 =? 0))
         || ((byte_val b0 =? 0xff) && (Z.land (byte_val b1) 0x80 =? 0x80))
      then Err (StructuralError "integer not minimally-encoded")
      else Ok tt
  end.

Definition parseBigInt (bytes : list byte) : outcome Z :=
  _ <- checkInteger bytes ;;
  if (0 <? List.length bytes)%nat && highBit bytes then
    let notBytes := map (fun b => byte_of (Z.lxor (byte_val b) 0xff)) bytes in
    Ok (- (big.SetBytes notBytes + 1))
  else Ok (big.SetBytes bytes).

(** [parseField] at a [*big.Int] field of the struct. *)
Definition parseBigIntField (bytes : list byte) : outcome (Z * list byte) :=
  r <- parseHeader TagInteger false bytes ;;
  let '(innerBytes, rest) := r in
  v <- parseBigInt innerBytes ;;
  Ok (v, rest).

(** [Unmarshal(b, &sm2Sign)]: the decoded struct and the bytes after
    the SEQUENCE. Bytes inside the SEQUENCE after the last field are
    allowed, as in the library. *)
Definition Unmarshal (b : list byte) : outcome (sm2Signature * list byte) :=
  r <- parseHeader TagSequence true b ;;
  let '(innerBytes, rest) := r in
  f <- parseBigIntField innerBytes ;;
  let '(r, innerBytes) := f in
  f <- parseBigIntField innerBytes ;;
  let '(s, _) := f in
  Ok ({| R := r; S := s |}, rest).

End asn1.

(** ** The methods of the keys *)

Definition PrivateKey_Sign (priv : PrivateKey) (rand : io.Reader) (msg : list byte)
  : outcome (list byte) * io.Reader :=
  let '(res, rand') := Sign rand priv msg in
  (match res with
   | Ok (r, s) => asn1.Marshal {| R := r; S := s |}
   | Err err => Err err
   | Panic w => Panic w
   end, rand').

Definition PublicKey_Verify (pub : PublicKey) (msg : list byte) (sign : list byte)
  : outcome bool :=
  match asn1.Unmarshal sign with
  | Ok (sm2Sign, _) => Verify pub msg (R sm2Sign) (S sm2Sign)
  | Err _ => Ok false
  | Panic w => Panic w
  end.

(** ** Auxiliary definitions for the statements *)

(** The number of bytes both scalar generators ask for. *)
Definition randLen (c : elliptic.Curve) : Z :=
  Z.quot (elliptic.BitSize (elliptic.Params c)) 8 + 8.

(** The scalar both generators derive from the bytes read. *)
Definition scalarOf (c : elliptic.Curve) (b : list byte) : Z :=
  big.SetBytes b mod (elliptic.N (elliptic.Params c) - 1) + 1.

(** The bit length of an integer. *)
Definition bitlength (n : Z) : Z := if n =? 0 then 0 else Z.log2 (Z.abs n) + 1.

(** Sign after the length check: the steps on the nonce. *)
Definition signWith (priv : PrivateKey) (e : Z) (k : option Z) : outcome (Z * Z) :=
  let c := Curve (Public priv) in
  kb <- big.Bytes_ptr k ;;
  let '(x1, _) := elliptic.ScalarBaseMult c kb in
  let n := elliptic.N (elliptic.Params c) in
  r <- big.Mod (e + x1) n ;;
  s1 <- big.Mod (r * D priv) n ;;
  k <- big.deref k ;;
  s1 <- big.Mod (k - s1) n ;;
  s2 <- big.Mod (1 + D priv) n ;;
  let s2 := big.ModInverse s2 s2 n in
  s <- big.Mod (s1 * s2) n ;;
  Ok (r, s).

(** ** Laws of a curve

    What the signature equations need from the curve behind the Go
    interface: the multiples of the base point form a group of prime
    order [N] under [Add], and [ScalarMult] on a multiple of the base
    point multiplies the scalars. *)

Definition mulBase (c : elliptic.Curve) (k : Z) : Z * Z :=
  elliptic.ScalarBaseMult c (big.Bytes k).

Record CurveLaws (c : elliptic.Curve) : Prop := {
  order_prime : Z.prime (elliptic.N (elliptic.Params c));
  base_add : forall a b : Z, 0 <= a -> 0 <= b ->
    elliptic.Add c (fst (mulBase c a)) (snd (mulBase c a))
                   (fst (mulBase c b)) (snd (mulBase c b))
    = mulBase c (a + b);
  base_mult : forall d t : Z, 0 <= d -> 0 <= t ->
    elliptic.ScalarMult c (fst (mulBase c d)) (snd (mulBase c d)) (big.Bytes t)
    = mulBase c (d * t);
  base_order : forall a : Z, 0 <= a ->
    mulBase c (a mod elliptic.N (elliptic.Params c)) = mulBase c a;
  base_zero : mulBase c 0 = (0, 0)
}.

(** ** A small curve obeying the laws

    The curve y^2 = x^3 + 2x + 2 over the field of 17 elements, with
    base point (5, 1) of prime order 19, run through the same point
    arithmetic as the curve of the package. Its group is small enough
    for the laws to be checked exhaustively. *)

Definition smallParams : elliptic.CurveParams :=
  {| elliptic.P := 17; elliptic.N := 19; elliptic.B := 2;
     elliptic.Gx := 5; elliptic.Gy := 1; elliptic.BitSize := 5 |}.

Definition smallCurve : elliptic.Curve := weierstrass.curve 2 smallParams.

(** The multiples 0*G, 1*G, ..., 18*G of the base point. *)
Definition smallTable : list (Z * Z) :=
  [(0, 0); (5, 1); (6, 3); (10, 6); (3, 1); (9, 16); (16, 13); (0, 6);
   (13, 7); (7, 6); (7, 11); (13, 10); (0, 11); (16, 4); (9, 1); (3, 16);
   (10, 11); (6, 14); (5, 16)].

Definition smallMultiple (i : Z) : Z * Z :=
  nth (Z.to_nat (i mod 19)) smallTable (0, 0).

Definition smallRange : list Z := map Z.of_nat (seq 0 19).

Definition pointEqb (P Q : Z * Z) : bool :=
  (fst P =? fst Q) && (snd P =? snd Q).

Definition smallAddCheck : bool :=
  forallb (fun i => forallb (fun j =>
    pointEqb (weierstrass.add 17 2 (fst (smallMultiple i)) (snd (smallMultiple i))
                                   (fst (smallMultiple j)) (snd (smallMultiple j)))
             (smallMultiple (i + j))) smallRange) smallRange.

Definition smallDoubleCheck : bool :=
  forallb (fun i =>
    pointEqb (weierstrass.double 17 2 (fst (smallMultiple i)) (snd (smallMultiple i)))
             (smallMultiple (2 * i))) smallRange.

(** The bits of a byte, most significant first, as an integer. *)
Definition bitsValue (bits : list bool) : Z :=
  fold_left (fun acc (bit : bool) => 2 * acc + (if bit then 1 else 0)) bits 0.

(** ** Concrete keys, digests and readers used in the examples *)

(** The key [GenerateKey] derives from forty zero bytes: D = 1 and the
    base point as public key. *)
Definition keyOne : PrivateKey :=
  {| Public := {| Curve := sm2P256;
                  X := elliptic.Gx sm2P256Params;
                  Y := elliptic.Gy sm2P256Params |};
     D := 1 |}.

(** The 32-byte digest n - Gx, for which the nonce 1 gives R = 0. *)
Definition digestZeroR : list byte :=
  big.Bytes (elliptic.N sm2P256Params - elliptic.Gx sm2P256Params).

(** A reader whose forty bytes are the integer 2, so the nonce is 3. *)
Definition nonceThree : io.Reader :=
  io.Stream (repeat Byte.x00 39 ++ [Byte.x02]).

(** The 32-byte digest (1 - x(3G)) mod n, signed as (1, 1) with nonce 3
    under [keyOne]. *)
Definition digestOneOne : list byte :=
  big.Bytes ((1 - fst (elliptic.ScalarBaseMult sm2P256 (big.Bytes 3)))
             mod elliptic.N sm2P256Params).

(** The public key ((n-1)/2)*G; twice this point is the opposite of
    the base point. *)
Definition pubHalf : PublicKey :=
  {| Curve := sm2P256;
     X := 4620538751632076227112713343962657274089529614167826842172111574209477664819;
     Y := 63722418896158128075265450418596629416298125477941870896467381264428394023092 |}.

(** The 32-byte digest whose integer is 1. *)
Definition digestOne : list byte := repeat Byte.x00 31 ++ [Byte.x01].

(** The 32-byte digest n - 1 - Gx. *)
Definition digestTZero : list byte :=
  big.Bytes (elliptic.N sm2P256Params - 1 - elliptic.Gx sm2P256Params).

(** Readers and a digest for the small curve. *)
Definition smallKeyReader : io.Reader :=
  io.Stream (repeat Byte.x00 7 ++ [Byte.x06]).

Definition smallNonceReader : io.Reader :=
  io.Stream (repeat Byte.x00 7 ++ [Byte.x04]).

Definition smallDigest : list byte := repeat Byte.x01 32.

(** The key [GenerateKey] derives from [smallKeyReader]: D = 7. *)
Definition smallKey : PrivateKey :=
  {| Public := {| Curve := smallCurve; X := 0; Y := 6 |}; D := 7 |}.

(** ** Shapes of encodings *)

(** A big-endian slice without a leading zero byte. *)
Definition noLeadingZero (ds : list byte) : Prop :=
  match ds with
  | [] => True
  | b :: _ => byte_val b <> 0
  end.

(** The envelope: a SEQUENCE holding the INTEGERs [r] and [s], then
    [extra] bytes still inside the SEQUENCE. *)
Definition envelope (r s : Z) (extra : list byte) : list byte :=
  let body := asn1.marshalBigInt r ++ asn1.marshalBigInt s ++ extra in
  asn1.appendTagAndLength
    {| asn1.class := asn1.ClassUniversal; asn1.tag := asn1.TagSequence;
       asn1.length := length body; asn1.isCompound := true |}
  ++ body.

(** ** Congruence modulo an integer, for rewriting *)

#[local] Instance eqm_equivalence (n : Z) : Equivalence (eqm n) := eqm_setoid n.
#[local] Instance eqm_add (n : Z) : Proper (eqm n ==> eqm n ==> eqm n) Z.add := Zplus_eqm n.
#[local] Instance eqm_sub (n : Z) : Proper (eqm n ==> eqm n ==> eqm n) Z.sub := Zminus_eqm n.
#[local] Instance eqm_mul (n : Z) : Proper (eqm n ==> eqm n ==> eqm n) Z.mul := Zmult_eqm n.

(** ** The zero reader

    [zr.Read] of sm2.go: every byte of the buffer is set to zero, and
    the call reports the whole buffer as read, without error. *)

Definition zr_Read (dst : list byte) : list byte * nat * option error :=
  (map (fun _ => Byte.x00) dst, length dst, None).

(** [PrivateKey.Public]: the public key held inside the private key. *)
Definition PrivateKey_Public (priv : PrivateKey) : PublicKey := Public priv.

(** The key [GenerateKey] derives on the small curve from the byte 17:
    D = 18 = n - 1. *)
Definition smallKeyLast : PrivateKey :=
  {| Public := {| Curve := smallCurve; X := 5; Y := 16 |}; D := 18 |}.

(** * Properties *)

(** ** Bytes and integers *)

Lemma byte_val_range (b : byte) : 0 <= byte_val b < 256.
Proof.
  unfold byte_val. pose proof (Byte.to_N_bounded b). lia.
Qed.

Lemma byte_of_val (b : byte) : byte_of (byte_val b) = b.
Proof.
  unfold byte_of. rewrite Z.mod_small by apply byte_val_range.
  unfold byte_val. rewrite N2Z.id, Byte.of_to_N. reflexivity.
Qed.

Lemma byte_val_of (z : Z) : byte_val (byte_of z) = z mod 256.
Proof.
  unfold byte_of, byte_val.
  pose proof (Z.mod_pos_bound z 256 ltac:(lia)) as Hm.
  destruct (Byte.of_N (Z.to_N (z mod 256))) as [b|] eqn:E.
  - apply Byte.to_of_N in E. rewrite E. lia.
  - apply Byte.of_N_None_iff in E. lia.
Qed.

Lemma byte_val_inj (a b : byte) : byte_val a = byte_val b -> a = b.
Proof.
  intros H. rewrite <- (byte_of_val a), <- (byte_of_val b), H. reflexivity.
Qed.

Lemma SetBytes_fold (buf : list byte) (acc : Z) :
  fold_left (fun acc b => acc * 256 + byte_val b) buf acc
  = acc * 256 ^ Z.of_nat (length buf) + big.SetBytes buf.
Proof.
  unfold big.SetBytes. revert acc.
  induction buf as [|b buf IH]; intros acc.
  - simpl. lia.
  - cbn [fold_left length]. rewrite IH, (IH (0 * 256 + byte_val b)).
    rewrite Nat2Z.inj_succ, Z.pow_succ_r by lia. ring.
Qed.

Lemma SetBytes_cons (b : byte) (buf : list byte) :
  big.SetBytes (b :: buf) = byte_val b * 256 ^ Z.of_nat (length buf) + big.SetBytes buf.
Proof.
  unfold big.SetBytes at 1. cbn [fold_left]. rewrite SetBytes_fold. ring.
Qed.

Lemma SetBytes_app (l1 l2 : list byte) :
  big.SetBytes (l1 ++ l2) = big.SetBytes l1 * 256 ^ Z.of_nat (length l2) + big.SetBytes l2.
Proof.
  unfold big.SetBytes at 1. rewrite fold_left_app.
  fold (big.SetBytes l1). apply SetBytes_fold.
Qed.

Lemma SetBytes_snoc (l : list byte) (b : byte) :
  big.SetBytes (l ++ [b]) = big.SetBytes l * 256 + byte_val b.
Proof.
  rewrite SetBytes_app. change (Z.of_nat (length [b])) with 1.
  rewrite Z.pow_1_r. unfold big.SetBytes at 2. cbn [fold_left]. lia.
Qed.

Lemma SetBytes_range (buf : list byte) :
  0 <= big.SetBytes buf < 256 ^ Z.of_nat (length buf).
Proof.
  induction buf as [|b buf IH] using rev_ind.
  - cbn. lia.
  - rewrite SetBytes_snoc, length_app, Nat2Z.inj_add. cbn [length].
    rewrite Z.pow_add_r by lia. pose proof (byte_val_range b).
    change (256 ^ Z.of_nat 1) with 256. nia.
Qed.

Lemma SetBytes_repeat_zero (n : nat) : big.SetBytes (repeat Byte.x00 n) = 0.
Proof.
  induction n as [|n IH].
  - reflexivity.
  - cbn [repeat]. rewrite SetBytes_cons, IH. reflexivity.
Qed.

(** The digits of [z], read back most significant first, give [z]. *)
Lemma digits_value (fuel : nat) (z : Z) :
  0 <= z < 2 ^ Z.of_nat fuel ->
  big.SetBytes (rev (big.digits fuel z)) = z.
Proof.
  revert z. induction fuel as [|fuel IH]; intros z Hz.
  - cbn in Hz. cbn. lia.
  - cbn [big.digits]. destruct (Z.eqb_spec z 0) as [->|Hnz]; [reflexivity|].
    cbn [rev]. rewrite SetBytes_snoc, byte_val_of, IH.
    + pose proof (Z.div_mod z 256 ltac:(lia)). lia.
    + rewrite Nat2Z.inj_succ, Z.pow_succ_r in Hz by lia.
      split; [apply Z.div_pos; lia|].
      apply Z.div_lt_upper_bound; lia.
Qed.

Lemma log2_fuel (z : Z) : 0 <= z -> z < 2 ^ Z.of_nat (Datatypes.S (Z.to_nat (Z.log2 z))).
Proof.
  intros Hz. rewrite Nat2Z.inj_succ, Z2Nat.id by apply Z.log2_nonneg.
  destruct (Z.eq_dec z 0) as [->|Hnz]; [cbn; lia|].
  apply Z.log2_spec. lia.
Qed.

Lemma SetBytes_Bytes (x : Z) : big.SetBytes (big.Bytes x) = Z.abs x.
Proof.
  unfold big.Bytes. apply digits_value.
  split; [lia|]. apply log2_fuel. lia.
Qed.

Lemma SetBytes_Bytes_nonneg (x : Z) : 0 <= x -> big.SetBytes (big.Bytes x) = x.
Proof.
  intros H. rewrite SetBytes_Bytes. lia.
Qed.

(** ** The reader *)

Lemma ReadFull_length (rand rand' : io.Reader) (n : nat) (b : list byte) :
  io.ReadFull rand n = (Ok b, rand') -> length b = n.
Proof.
  destruct rand as [pending|]; cbn [io.ReadFull].
  - destruct (Nat.leb_spec n (length pending)); intros [= <- <-].
    apply firstn_length_le. assumption.
  - intros [= <- <-]. apply repeat_length.
Qed.

Lemma ReadFull_short (pending : list byte) (n : nat) :
  (length pending < n)%nat ->
  io.ReadFull (io.Stream pending) n = (Err io.ErrUnexpectedEOF, io.Stream []).
Proof.
  intros H. cbn [io.ReadFull].
  destruct (Nat.leb_spec n (length pending)); [lia | reflexivity].
Qed.

Lemma ReadFull_never_panics (rand rand' : io.Reader) (n : nat) (w : string) :
  io.ReadFull rand n <> (Panic w, rand').
Proof.
  destruct rand as [pending|]; cbn [io.ReadFull]; [|discriminate].
  destruct (n <=? length pending)%nat; discriminate.
Qed.

(** ** Modular steps *)

Lemma Mod_pos (x n : Z) : 0 < n -> big.Mod x n = Ok (x mod n).
Proof.
  intros H. unfold big.Mod.
  destruct (Z.eqb_spec n 0); [lia|]. rewrite Z.abs_eq by lia. reflexivity.
Qed.

Lemma Mod_not_Err (x n : Z) (e : error) : big.Mod x n <> Err e.
Proof.
  unfold big.Mod. destruct (n =? 0); discriminate.
Qed.

Lemma make_len_nonneg (n : Z) : 0 <= n -> make_len n = Ok (Z.to_nat n).
Proof.
  intros H. unfold make_len. destruct (Z.ltb_spec n 0); [lia | reflexivity].
Qed.


Lemma scalarOf_range (c : elliptic.Curve) (b : list byte) :
  1 < elliptic.N (elliptic.Params c) ->
  1 <= scalarOf c b <= elliptic.N (elliptic.Params c) - 1.
Proof.
  intros H. unfold scalarOf.
  pose proof (Z.mod_pos_bound (big.SetBytes b) (elliptic.N (elliptic.Params c) - 1)
                ltac:(lia)). lia.
Qed.

Lemma randFieldElement_read (c : elliptic.Curve) (rand rand' : io.Reader) (b : list byte) :
  1 < elliptic.N (elliptic.Params c) ->
  0 <= randLen c ->
  io.ReadFull rand (Z.to_nat (randLen c)) = (Ok b, rand') ->
  randFieldElement c rand = (Ok (scalarOf c b), rand').
Proof.
  intros HN Hlen Hread. unfold randFieldElement. fold (randLen c).
  rewrite make_len_nonneg by assumption. rewrite Hread.
  cbn [bind]. unfold one. rewrite Mod_pos by lia. reflexivity.
Qed.

Lemma generateRandK_read (c : elliptic.Curve) (rand rand' : io.Reader) (b : list byte) :
  1 < elliptic.N (elliptic.Params c) ->
  0 <= randLen c ->
  io.ReadFull rand (Z.to_nat (randLen c)) = (Ok b, rand') ->
  generateRandK rand c = (Ok (Some (scalarOf c b)), rand').
Proof.
  intros HN Hlen Hread. unfold generateRandK. fold (randLen c).
  rewrite make_len_nonneg by assumption. rewrite Hread.
  unfold one. rewrite Mod_pos by lia. reflexivity.
Qed.

Lemma generateRandK_failed_read (c : elliptic.Curve) (rand rand' : io.Reader) (e : error) :
  0 <= randLen c ->
  io.ReadFull rand (Z.to_nat (randLen c)) = (Err e, rand') ->
  generateRandK rand c = (Ok None, rand').
Proof.
  intros Hlen Hread. unfold generateRandK. fold (randLen c).
  rewrite make_len_nonneg by assumption. rewrite Hread. reflexivity.
Qed.

Lemma generateRandK_not_Err (c : elliptic.Curve) (rand : io.Reader) (e : error) :
  fst (generateRandK rand c) <> Err e.
Proof.
  unfold generateRandK, make_len.
  destruct (_ <? 0); [discriminate|].
  destruct (io.ReadFull rand _) as [[b | e' | w] rand']; cbn [fst]; try discriminate.
  unfold big.Mod. destruct (_ =? 0); discriminate.
Qed.


Lemma Sign_unfold (rand : io.Reader) (priv : PrivateKey) (hash : list byte) :
  (32 <= length hash)%nat ->
  Sign rand priv hash =
  (k <- fst (generateRandK rand (Curve (Public priv))) ;;
   signWith priv (big.SetBytes (firstn 32 hash)) k,
   snd (generateRandK rand (Curve (Public priv)))).
Proof.
  intros H. unfold Sign.
  destruct (Nat.ltb_spec (length hash) 32); [lia|].
  destruct (generateRandK rand (Curve (Public priv))) as [k rand'].
  reflexivity.
Qed.

Lemma signWith_not_Err (priv : PrivateKey) (e : Z) (k : option Z) (err : error) :
  signWith priv e k <> Err err.
Proof.
  unfold signWith. destruct k as [k|]; cbn [big.Bytes_ptr big.deref bind]; [|discriminate].
  destruct (elliptic.ScalarBaseMult _ _) as [x1 y1].
  unfold big.Mod. destruct (_ =? 0); cbn [bind]; discriminate.
Qed.

(** ** Range checks of Verify *)

Lemma Verify_out_of_range (pub : PublicKey) (hash : list byte) (r s : Z) :
  r < 1 \/ elliptic.N (elliptic.Params (Curve pub)) <= r \/
  s < 1 \/ elliptic.N (elliptic.Params (Curve pub)) <= s ->
  Verify pub hash r s = Ok false.
Proof.
  intros H. unfold Verify, big.Sign, big.Cmp.
  set (n := elliptic.N (elliptic.Params (Curve pub))) in *.
  destruct (Z.leb_spec (Z.sgn r) 0) as [Hr|Hr]; [reflexivity|].
  destruct (Z.leb_spec (Z.sgn s) 0) as [Hs|Hs]; [reflexivity|].
  cbn [orb].
  destruct (Z.compare_spec r n); destruct (Z.compare_spec s n);
    cbn; try reflexivity; lia.
Qed.

Lemma Verify_in_range (pub : PublicKey) (hash : list byte) (r s : Z) :
  let c := Curve pub in
  let n := elliptic.N (elliptic.Params c) in
  1 <= r < n -> 1 <= s < n ->
  Verify pub hash r s =
  Ok (let '(x11, y11) := elliptic.ScalarMult c (X pub) (Y pub) (big.Bytes (r + s)) in
      let '(x12, y12) := elliptic.ScalarBaseMult c (big.Bytes s) in
      let '(x1, _) := elliptic.Add c x11 y11 x12 y12 in
      (big.SetBytes hash + x1) mod n =? r).
Proof.
  intros c n Hr Hs. unfold Verify, big.Sign, big.Cmp. fold c. fold n.
  destruct (Z.leb_spec (Z.sgn r) 0) as [H|_]; [lia|].
  destruct (Z.leb_spec (Z.sgn s) 0) as [H|_]; [lia|].
  cbn [orb].
  destruct (Z.compare_spec r n); try lia.
  destruct (Z.compare_spec s n); try lia.
  cbn [Z.geb Z.compare orb].
  destruct (elliptic.ScalarMult c _ _ _) as [x11 y11].
  destruct (elliptic.ScalarBaseMult c _) as [x12 y12].
  destruct (elliptic.Add c _ _ _ _) as [x1 y1].
  rewrite Mod_pos by lia. cbn [bind]. f_equal.
  destruct (Z.compare_spec ((big.SetBytes hash + x1) mod n) r) as [E|E|E];
    destruct (Z.eqb_spec ((big.SetBytes hash + x1) mod n) r); try reflexivity; lia.
Qed.

(** C5: Verify returns false whenever R or S lies outside [1, n-1],
    whatever the key, the digest and the other component; this covers
    R = 0, R = n, S = 0 and S = n. *)
Theorem Verify_rejects_out_of_range (pub : PublicKey) (hash : list byte) (r s : Z) :
  let n := elliptic.N (elliptic.Params (Curve pub)) in
  ~ (1 <= r <= n - 1) \/ ~ (1 <= s <= n - 1) ->
  Verify pub hash r s = Ok false.
Proof.
  intros n H. apply Verify_out_of_range. fold n. lia.
Qed.

(** ** Length check of Sign *)

(** C7: a digest shorter than 32 bytes makes Sign return its error
    with the reader untouched, so before any nonce is drawn; a digest
    of at least 32 bytes never produces an error return. *)
Theorem Sign_digest_length_check (rand : io.Reader) (priv : PrivateKey) (hash : list byte) :
  ((length hash < 32)%nat -> Sign rand priv hash = (Err errShortHash, rand)) /\
  ((32 <= length hash)%nat -> forall e : error, fst (Sign rand priv hash) <> Err e).
Proof.
  split.
  - intros H. unfold Sign. destruct (Nat.ltb_spec (length hash) 32); [reflexivity | lia].
  - intros H e. rewrite Sign_unfold by assumption. cbn [fst].
    pose proof (generateRandK_not_Err (Curve (Public priv)) rand) as HK.
    destruct (fst (generateRandK rand (Curve (Public priv)))) as [k | e' | w];
      cbn [bind]; [apply signWith_not_Err | | discriminate].
    exfalso. apply (HK e'). reflexivity.
Qed.

(** ** Entropy failure *)

(** C3: with a source holding fewer bytes than requested, Sign neither
    returns an error nor a signature: the nil nonce left by
    generateRandK is dereferenced and the call panics. *)
Theorem Sign_exhausted_entropy_panics (pending : list byte) (priv : PrivateKey) (hash : list byte) :
  (32 <= length hash)%nat ->
  0 <= randLen (Curve (Public priv)) ->
  Z.of_nat (length pending) < randLen (Curve (Public priv)) ->
  Sign (io.Stream pending) priv hash = (Panic nilDeref, io.Stream []).
Proof.
  intros Hh Hlen Hshort. rewrite Sign_unfold by assumption.
  rewrite (generateRandK_failed_read _ _ (io.Stream []) io.ErrUnexpectedEOF Hlen).
  - reflexivity.
  - apply ReadFull_short. lia.
Qed.

(** The sibling generator reports the same failure as an error, and
    key generation passes it on. *)
Lemma GenerateKey_exhausted_entropy (c : elliptic.Curve) (pending : list byte) :
  0 <= randLen c ->
  Z.of_nat (length pending) < randLen c ->
  GenerateKey c (io.Stream pending) = (Err io.ErrUnexpectedEOF, io.Stream []).
Proof.
  intros Hlen Hshort. unfold GenerateKey, randFieldElement. fold (randLen c).
  rewrite make_len_nonneg by assumption.
  rewrite ReadFull_short by lia. reflexivity.
Qed.

(** ** Random scalars *)


(** C6: on a curve whose BitSize is the bit length of n, both scalar
    generators read bitlength(n)/8 + 8 bytes, take them as a big-endian
    integer b and return (b mod (n-1)) + 1, which lies in [1, n-1]. *)
Theorem random_scalar_generation (c : elliptic.Curve) (rand rand' : io.Reader) (b : list byte) :
  let n := elliptic.N (elliptic.Params c) in
  let len := bitlength n / 8 + 8 in
  let k := big.SetBytes b mod (n - 1) + 1 in
  elliptic.BitSize (elliptic.Params c) = bitlength n ->
  1 < n ->
  io.ReadFull rand (Z.to_nat len) = (Ok b, rand') ->
  randFieldElement c rand = (Ok k, rand') /\
  generateRandK rand c = (Ok (Some k), rand') /\
  Z.of_nat (length b) = len /\
  1 <= k <= n - 1.
Proof.
  intros n len k HB HN Hread.
  assert (Hbl : 0 <= bitlength n).
  { unfold bitlength. destruct (n =? 0); [lia|].
    pose proof (Z.log2_nonneg (Z.abs n)). lia. }
  assert (Hlen : randLen c = len).
  { unfold randLen, len. rewrite HB. rewrite Z.quot_div_nonneg by lia. reflexivity. }
  assert (0 <= len).
  { unfold len. pose proof (Z.div_pos (bitlength n) 8 Hbl ltac:(lia)). lia. }
  rewrite <- Hlen in Hread.
  repeat split.
  - apply randFieldElement_read; [assumption | lia | assumption].
  - apply generateRandK_read; [assumption | lia | assumption].
  - apply ReadFull_length in Hread. rewrite Hread, Z2Nat.id; lia.
  - apply (scalarOf_range c b HN).
  - apply (scalarOf_range c b HN).
Qed.

(** ** One attempt, no retry *)

Lemma ModInverse_range (z g n : Z) :
  1 < n -> 0 <= z < n -> 0 <= big.ModInverse z g n < n.
Proof.
  intros Hn Hz. unfold big.ModInverse.
  destruct (Z.gcd _ _ =? 1); [|assumption].
  rewrite Z.abs_eq by lia. unfold Z.invmod. apply Z.mod_pos_bound. lia.
Qed.

Lemma signWith_Some (priv : PrivateKey) (e k : Z) :
  let c := Curve (Public priv) in
  let n := elliptic.N (elliptic.Params c) in
  let r := (e + fst (elliptic.ScalarBaseMult c (big.Bytes k))) mod n in
  let s1 := (k - (r * D priv) mod n) mod n in
  let s2 := (1 + D priv) mod n in
  0 < n ->
  signWith priv e (Some k) = Ok (r, (s1 * big.ModInverse s2 s2 n) mod n).
Proof.
  intros c n r s1 s2 Hn. subst r s1 s2. unfold signWith.
  cbn [big.Bytes_ptr big.deref bind]. fold c. fold n.
  destruct (elliptic.ScalarBaseMult c (big.Bytes k)) as [x1 y1].
  cbn [fst]. rewrite !Mod_pos by assumption. cbn [bind].
  rewrite !Mod_pos by assumption. cbn [bind].
  rewrite !Mod_pos by assumption. cbn [bind].
  rewrite !Mod_pos by assumption. reflexivity.
Qed.

(** C2, as the code has it: Sign draws one nonce and makes one attempt.
    Whenever the read succeeds it returns R = (E + x1) mod n and
    S = ((k - R*D) * (1+D)^-1) mod n without testing them, so both lie
    in [0, n-1], and the reader has advanced by exactly one read. *)
Theorem Sign_single_attempt (rand rand' : io.Reader) (priv : PrivateKey)
    (hash b : list byte) :
  let c := Curve (Public priv) in
  let n := elliptic.N (elliptic.Params c) in
  let e := big.SetBytes (firstn 32 hash) in
  let k := scalarOf c b in
  let r := (e + fst (elliptic.ScalarBaseMult c (big.Bytes k))) mod n in
  let s1 := (k - (r * D priv) mod n) mod n in
  let s2 := (1 + D priv) mod n in
  let s := (s1 * big.ModInverse s2 s2 n) mod n in
  (32 <= length hash)%nat ->
  1 < n ->
  0 <= randLen c ->
  io.ReadFull rand (Z.to_nat (randLen c)) = (Ok b, rand') ->
  Sign rand priv hash = (Ok (r, s), rand') /\ 0 <= r < n /\ 0 <= s < n.
Proof.
  intros c n e k r s1 s2 s Hh Hn Hlen Hread.
  rewrite Sign_unfold by assumption. fold c.
  rewrite (generateRandK_read c rand rand' b Hn Hlen Hread).
  cbn [fst snd bind]. rewrite signWith_Some by (fold c; fold n; lia).
  split; [reflexivity|].
  split; apply Z.mod_pos_bound; lia.
Qed.

(** ** Truncation of the digest *)

Lemma Sign_first_32 (rand : io.Reader) (priv : PrivateKey) (h1 h2 : list byte) :
  (32 <= length h1)%nat -> (32 <= length h2)%nat ->
  firstn 32 h1 = firstn 32 h2 ->
  Sign rand priv h1 = Sign rand priv h2.
Proof.
  intros H1 H2 E. rewrite !Sign_unfold by assumption. rewrite E. reflexivity.
Qed.

Lemma Verify_whole_digest (pub : PublicKey) (h1 h2 : list byte) (r s : Z) :
  big.SetBytes h1 = big.SetBytes h2 ->
  Verify pub h1 r s = Verify pub h2 r s.
Proof.
  intros E. unfold Verify. rewrite E. reflexivity.
Qed.


(** ** The signature equation *)

Section Congruences.

Variable n : Z.

(** From S = (k - R*D) * (1+D)^-1 it follows that S + (R+S)*D = k,
    modulo n. *)
Lemma sign_equation (d k r i : Z) :
  let s1 := (k - (r * d) mod n) mod n in
  let s2 := (1 + d) mod n in
  let s := (s1 * i) mod n in
  (i * s2) mod n = 1 mod n ->
  (d * (r + s) + s) mod n = k mod n.
Proof.
  intros s1 s2 s Hi. change (eqm n (d * (r + s) + s) k).
  assert (Hs : eqm n s (s1 * i)) by apply Zmod_eqm.
  assert (Hs1 : eqm n s1 (k - r * d)).
  { unfold s1. rewrite Zmod_eqm. rewrite Zmod_eqm. reflexivity. }
  assert (Hs2 : eqm n s2 (1 + d)) by apply Zmod_eqm.
  assert (Hinv : eqm n (i * s2) 1) by exact Hi.
  replace (d * (r + s) + s) with (s * (1 + d) + r * d) by ring.
  rewrite <- Hs2, Hs.
  replace (s1 * i * s2) with (s1 * (i * s2)) by ring.
  rewrite Hinv, Hs1.
  replace ((k - r * d) * 1 + r * d) with k by ring.
  reflexivity.
Qed.

End Congruences.

Lemma ModInverse_prime (n d : Z) :
  Z.prime n ->
  let s2 := (1 + d) mod n in
  (s2 = 0 /\ big.ModInverse s2 s2 n = 0) \/
  (big.ModInverse s2 s2 n * s2) mod n = 1 mod n.
Proof.
  intros Hp s2. pose proof Hp as [Hn _].
  pose proof (Z.mod_pos_bound (1 + d) n ltac:(lia)) as Hs2. fold s2 in Hs2.
  unfold big.ModInverse. rewrite (Z.abs_eq n) by lia.
  destruct (Z.ltb_spec s2 0) as [?|_]; [lia|].
  destruct (Z.eq_dec s2 0) as [E|E].
  - left. split; [assumption|]. rewrite E, Z.gcd_0_l, Z.abs_eq by lia.
    destruct (Z.eqb_spec n 1); [lia | reflexivity].
  - right.
    assert (Hc : Z.coprime s2 n).
    { unfold Z.coprime. rewrite Z.gcd_comm.
      apply (Z.coprime_prime_small n s2 Hp). lia. }
    unfold Z.coprime in Hc. rewrite Hc. cbn [Z.eqb Pos.eqb].
    rewrite Z.invmod_coprime by (try lia; exact Hc).
    rewrite Z.mod_1_l by lia. reflexivity.
Qed.

(** ** Inversion of successful calls *)

Lemma randFieldElement_Ok (c : elliptic.Curve) (rand rand' : io.Reader) (k : Z) :
  1 < elliptic.N (elliptic.Params c) ->
  randFieldElement c rand = (Ok k, rand') ->
  1 <= k <= elliptic.N (elliptic.Params c) - 1.
Proof.
  intros Hn. unfold randFieldElement, make_len.
  destruct (_ <? 0); [discriminate|].
  destruct (io.ReadFull rand _) as [[b | e | w] rand1]; cbn [bind]; try discriminate.
  unfold one. rewrite Mod_pos by lia. cbn [bind].
  intros [= <- _]. apply (scalarOf_range c b Hn).
Qed.

Lemma generateRandK_Some (c : elliptic.Curve) (rand rand' : io.Reader) (k : Z) :
  1 < elliptic.N (elliptic.Params c) ->
  generateRandK rand c = (Ok (Some k), rand') ->
  1 <= k <= elliptic.N (elliptic.Params c) - 1.
Proof.
  intros Hn. unfold generateRandK, make_len.
  destruct (_ <? 0); [discriminate|].
  destruct (io.ReadFull rand _) as [[b | e | w] rand1]; try discriminate.
  unfold one. rewrite Mod_pos by lia. cbn [bind].
  intros [= <- _]. apply (scalarOf_range c b Hn).
Qed.

Lemma GenerateKey_Ok (c : elliptic.Curve) (rand rand' : io.Reader) (priv : PrivateKey) :
  1 < elliptic.N (elliptic.Params c) ->
  GenerateKey c rand = (Ok priv, rand') ->
  Curve (Public priv) = c /\
  1 <= D priv <= elliptic.N (elliptic.Params c) - 1 /\
  (X (Public priv), Y (Public priv)) = mulBase c (D priv).
Proof.
  intros Hn. unfold GenerateKey.
  destruct (randFieldElement c rand) as [[k | e | w] rand1] eqn:E;
    cbn [bind]; try discriminate.
  unfold mulBase.
  destruct (elliptic.ScalarBaseMult c (big.Bytes k)) as [x y] eqn:EP.
  intros [= <- _]. cbn [Public Curve D X Y]. rewrite EP.
  split; [reflexivity|]. split; [|reflexivity].
  apply (randFieldElement_Ok c rand rand1 k Hn E).
Qed.

Lemma Sign_Ok (rand rand' : io.Reader) (priv : PrivateKey) (hash : list byte) (r s : Z) :
  Sign rand priv hash = (Ok (r, s), rand') ->
  (32 <= length hash)%nat /\
  exists k : Z,
    generateRandK rand (Curve (Public priv)) = (Ok (Some k), rand') /\
    signWith priv (big.SetBytes (firstn 32 hash)) (Some k) = Ok (r, s).
Proof.
  intros H.
  assert (Hlen : (32 <= length hash)%nat).
  { destruct (Nat.le_gt_cases 32 (length hash)) as [?|Hlt]; [assumption|].
    unfold Sign in H. destruct (Nat.ltb_spec (length hash) 32); [discriminate | lia]. }
  split; [assumption|].
  rewrite Sign_unfold in H by assumption.
  destruct (generateRandK rand (Curve (Public priv))) as [[[k|] | e | w] rand1];
    cbn [fst snd bind] in H; try discriminate.
  exists k. injection H as H1 H2. subst rand1. split; [reflexivity | assumption].
Qed.

(** ** Round trip *)

Lemma Ok_pair_inj (A B : Type) (a a' : A) (b b' : B) :
  Ok (a, b) = Ok (a', b') -> a = a' /\ b = b'.
Proof.
  intros [= -> ->]. split; reflexivity.
Qed.

Lemma Verify_of_sign_equation (c : elliptic.Curve) (pub : PublicKey)
    (hash : list byte) (d k r s : Z) :
  let n := elliptic.N (elliptic.Params c) in
  CurveLaws c ->
  Curve pub = c ->
  (X pub, Y pub) = mulBase c d ->
  0 <= d -> 0 <= k ->
  1 <= r < n -> 1 <= s < n ->
  (d * (r + s) + s) mod n = k mod n ->
  Verify pub hash r s = Ok ((big.SetBytes hash + fst (mulBase c k)) mod n =? r).
Proof.
  intros n L Hc HP Hd Hk Hr Hs Heq.
  rewrite Verify_in_range by (rewrite Hc; assumption).
  rewrite Hc. fold n.
  assert (EX : X pub = fst (mulBase c d)) by (rewrite <- HP; reflexivity).
  assert (EY : Y pub = snd (mulBase c d)) by (rewrite <- HP; reflexivity).
  rewrite EX, EY, (base_mult c L) by lia.
  fold (mulBase c s).
  pose proof (base_add c L (d * (r + s)) s ltac:(nia) ltac:(lia)) as HA.
  destruct (mulBase c (d * (r + s))) as [x11 y11].
  destruct (mulBase c s) as [x12 y12].
  cbn [fst snd] in HA. rewrite HA.
  rewrite <- (base_order c L) by nia. fold n. rewrite Heq.
  rewrite (base_order c L) by lia.
  destruct (mulBase c k) as [x1 y1]. reflexivity.
Qed.

(** C1, as the code has it: for a key from GenerateKey and a 32-byte
    digest, whenever Sign returns a pair whose components are both
    nonzero, Verify accepts it under the public key of that key. The
    curve is any implementation of the interface that obeys the group
    laws. *)
Theorem sign_then_verify (c : elliptic.Curve) (rand0 rand1 rand rand' : io.Reader)
    (priv : PrivateKey) (hash : list byte) (r s : Z) :
  CurveLaws c ->
  GenerateKey c rand0 = (Ok priv, rand1) ->
  length hash = 32%nat ->
  Sign rand priv hash = (Ok (r, s), rand') ->
  r <> 0 -> s <> 0 ->
  Verify (Public priv) hash r s = Ok true.
Proof.
  intros L Hgen Hlen Hsign Hr Hs.
  pose proof (order_prime c L) as Hp. pose proof Hp as [Hn _].
  destruct (GenerateKey_Ok c rand0 rand1 priv Hn Hgen) as (Hc & Hd & HP).
  destruct (Sign_Ok rand rand' priv hash r s Hsign) as (_ & k & Hk & Hw).
  rewrite Hc in Hk. apply (generateRandK_Some c rand rand' k Hn) in Hk.
  rewrite signWith_Some in Hw by (rewrite Hc; lia).
  rewrite Hc in Hw. rewrite firstn_all2 in Hw by lia.
  set (n := elliptic.N (elliptic.Params c)) in *.
  apply Ok_pair_inj in Hw. destruct Hw as [Er Es].
  assert (Hr' : 1 <= r < n).
  { pose proof (Z.mod_pos_bound (big.SetBytes hash
        + fst (elliptic.ScalarBaseMult c (big.Bytes k))) n ltac:(lia)). lia. }
  assert (Hs' : 1 <= s < n).
  { rewrite <- Es in Hs |- *.
    match goal with |- 1 <= ?a mod n < n =>
      pose proof (Z.mod_pos_bound a n ltac:(lia)) end. lia. }
  assert (Heq : (D priv * (r + s) + s) mod n = k mod n).
  { pose proof (ModInverse_prime n (D priv) Hp) as HM. cbv zeta in HM.
    destruct HM as [[_ Hz] | Hinv].
    - exfalso. apply Hs. rewrite <- Es, Hz, Z.mul_0_r. apply Z.mod_0_l. lia.
    - rewrite <- Es, <- Er. rewrite Er. apply sign_equation. exact Hinv. }
  rewrite (Verify_of_sign_equation c (Public priv) hash (D priv) k r s L Hc HP)
    by (fold n; lia || assumption).
  fold n. unfold mulBase. rewrite Er. rewrite Z.eqb_refl. reflexivity.
Qed.

(** ** The small curve obeys the laws *)

Lemma pointEqb_eq (P Q : Z * Z) : pointEqb P Q = true -> P = Q.
Proof.
  destruct P as [x y], Q as [x' y']. unfold pointEqb. cbn [fst snd].
  intros H. apply andb_prop in H. destruct H as [Hx Hy].
  apply Z.eqb_eq in Hx, Hy. subst. reflexivity.
Qed.

Lemma smallRange_In (i : Z) : 0 <= i < 19 -> In i smallRange.
Proof.
  intros H. unfold smallRange. apply in_map_iff.
  exists (Z.to_nat i). split; [lia|]. apply in_seq. lia.
Qed.

Lemma smallMultiple_mod (i : Z) : smallMultiple (i mod 19) = smallMultiple i.
Proof.
  unfold smallMultiple. rewrite Z.mod_mod by lia. reflexivity.
Qed.

Lemma smallMultiple_eqm (i j : Z) :
  i mod 19 = j mod 19 -> smallMultiple i = smallMultiple j.
Proof.
  intros H. unfold smallMultiple. rewrite H. reflexivity.
Qed.

Lemma small_add (i j : Z) :
  weierstrass.add 17 2 (fst (smallMultiple i)) (snd (smallMultiple i))
                       (fst (smallMultiple j)) (snd (smallMultiple j))
  = smallMultiple (i + j).
Proof.
  assert (Hc : smallAddCheck = true) by (vm_compute; reflexivity).
  unfold smallAddCheck in Hc. rewrite forallb_forall in Hc.
  pose proof (Z.mod_pos_bound i 19 ltac:(lia)) as Hi.
  pose proof (Z.mod_pos_bound j 19 ltac:(lia)) as Hj.
  specialize (Hc (i mod 19) (smallRange_In _ Hi)).
  rewrite forallb_forall in Hc.
  specialize (Hc (j mod 19) (smallRange_In _ Hj)).
  apply pointEqb_eq in Hc. rewrite !smallMultiple_mod in Hc.
  rewrite Hc. apply smallMultiple_eqm. rewrite <- Z.add_mod by lia. reflexivity.
Qed.

Lemma small_double (i : Z) :
  weierstrass.double 17 2 (fst (smallMultiple i)) (snd (smallMultiple i))
  = smallMultiple (2 * i).
Proof.
  assert (Hc : smallDoubleCheck = true) by (vm_compute; reflexivity).
  unfold smallDoubleCheck in Hc. rewrite forallb_forall in Hc.
  pose proof (Z.mod_pos_bound i 19 ltac:(lia)) as Hi.
  specialize (Hc (i mod 19) (smallRange_In _ Hi)).
  apply pointEqb_eq in Hc. rewrite !smallMultiple_mod in Hc.
  rewrite Hc. apply smallMultiple_eqm.
  rewrite Z.mul_mod_idemp_r by lia. reflexivity.
Qed.

Lemma small_bitStep (d i : Z) (bit : bool) :
  weierstrass.bitStep 17 2 (fst (smallMultiple d)) (snd (smallMultiple d)) bit
    (smallMultiple i)
  = smallMultiple (2 * i + (if bit then 1 else 0) * d).
Proof.
  unfold weierstrass.bitStep. rewrite small_double.
  destruct (smallMultiple (2 * i)) as [x y] eqn:E.
  destruct bit.
  - replace x with (fst (smallMultiple (2 * i))) by (rewrite E; reflexivity).
    replace y with (snd (smallMultiple (2 * i))) by (rewrite E; reflexivity).
    rewrite small_add. f_equal. lia.
  - rewrite <- E. f_equal. lia.
Qed.

Lemma fold_left_cons_eq (A B : Type) (f : A -> B -> A) (x : B) (l : list B) (a : A) :
  fold_left f (x :: l) a = fold_left f l (f a x).
Proof.
  reflexivity.
Qed.

Lemma small_bits (d : Z) (bits : list bool) (acc i : Z) :
  fold_left (fun P bit =>
      weierstrass.bitStep 17 2 (fst (smallMultiple d)) (snd (smallMultiple d)) bit P)
    bits (smallMultiple i)
  = smallMultiple
      (2 ^ Z.of_nat (length bits) * i
       + d * (fold_left (fun acc (bit : bool) => 2 * acc + (if bit then 1 else 0))
                bits acc
              - 2 ^ Z.of_nat (length bits) * acc)).
Proof.
  revert acc i. induction bits as [|bit bits IH]; intros acc i.
  - apply (f_equal smallMultiple).
    change (Z.of_nat (length (@nil bool))) with 0.
    rewrite Z.pow_0_r. cbn [fold_left]. lia.
  - rewrite !fold_left_cons_eq, small_bitStep.
    rewrite (IH (2 * acc + (if bit then 1 else 0))). f_equal.
    change (length (bit :: bits)) with (Datatypes.S (length bits)).
    rewrite Nat2Z.inj_succ, Z.pow_succ_r by lia. ring.
Qed.

Lemma fold_left_through_map (A B C : Type) (f : A -> C -> A) (g : B -> C)
    (l : list B) (a : A) :
  fold_left f (map g l) a = fold_left (fun a x => f a (g x)) l a.
Proof.
  revert a. induction l as [|x l IH]; intros a; [reflexivity|].
  cbn [map fold_left]. apply IH.
Qed.

Lemma byte_bits (k : byte) :
  bitsValue (map (Z.testbit (byte_val k)) [7; 6; 5; 4; 3; 2; 1; 0]) = byte_val k.
Proof.
  destruct k; reflexivity.
Qed.

Lemma small_byteStep (d i : Z) (k : byte) :
  weierstrass.byteStep 17 2 (fst (smallMultiple d)) (snd (smallMultiple d))
    (smallMultiple i) k
  = smallMultiple (256 * i + d * byte_val k).
Proof.
  unfold weierstrass.byteStep.
  rewrite <- (fold_left_through_map _ _ _
    (fun P bit => weierstrass.bitStep 17 2 (fst (smallMultiple d))
                    (snd (smallMultiple d)) bit P) (Z.testbit (byte_val k))).
  rewrite (small_bits d _ 0 i). fold (bitsValue (map (Z.testbit (byte_val k))
    [7; 6; 5; 4; 3; 2; 1; 0])). rewrite byte_bits.
  f_equal. cbn [map length]. change (2 ^ Z.of_nat 8) with 256. lia.
Qed.

Lemma small_scalarMultiply_from (d : Z) (k : list byte) (i : Z) :
  fold_left (weierstrass.byteStep 17 2 (fst (smallMultiple d)) (snd (smallMultiple d)))
    k (smallMultiple i)
  = smallMultiple (256 ^ Z.of_nat (length k) * i + d * big.SetBytes k).
Proof.
  revert i. induction k as [|b k IH]; intros i.
  - apply (f_equal smallMultiple).
    change (Z.of_nat (length (@nil byte))) with 0.
    change (big.SetBytes []) with 0. lia.
  - rewrite fold_left_cons_eq, small_byteStep, IH. apply smallMultiple_eqm. f_equal.
    rewrite SetBytes_cons. change (length (b :: k)) with (Datatypes.S (length k)).
    rewrite Nat2Z.inj_succ, Z.pow_succ_r by lia. ring.
Qed.

Lemma small_scalarMultiply (d : Z) (k : list byte) :
  weierstrass.scalarMultiply 17 2 (fst (smallMultiple d)) (snd (smallMultiple d)) k
  = smallMultiple (d * big.SetBytes k).
Proof.
  unfold weierstrass.scalarMultiply.
  change weierstrass.infinity with (smallMultiple 0).
  rewrite small_scalarMultiply_from. f_equal. lia.
Qed.

Lemma small_mulBase (k : Z) : 0 <= k -> mulBase smallCurve k = smallMultiple k.
Proof.
  intros H. unfold mulBase. cbn [smallCurve weierstrass.curve elliptic.ScalarBaseMult].
  change (elliptic.Gx smallParams) with (fst (smallMultiple 1)).
  change (elliptic.Gy smallParams) with (snd (smallMultiple 1)).
  change (elliptic.P smallParams) with 17.
  rewrite small_scalarMultiply, SetBytes_Bytes_nonneg by assumption.
  f_equal. lia.
Qed.

Lemma prime_19 : Z.prime 19.
Proof.
  split; [lia|]. intros m Hm [q Hq].
  assert (0 < q < 19) by nia.
  assert (Hcases : m = 2 \/ m = 3 \/ m = 4 \/ m = 5 \/ m = 6 \/ m = 7 \/ m = 8 \/
    m = 9 \/ m = 10 \/ m = 11 \/ m = 12 \/ m = 13 \/ m = 14 \/ m = 15 \/ m = 16 \/
    m = 17 \/ m = 18) by lia.
  repeat (destruct Hcases as [-> | Hcases]; [lia|]). lia.
Qed.

Lemma smallCurve_laws : CurveLaws smallCurve.
Proof.
  split.
  - exact prime_19.
  - intros a b Ha Hb. rewrite !small_mulBase by lia. apply small_add.
  - intros d t Hd Ht. rewrite !small_mulBase by nia.
    cbn [smallCurve weierstrass.curve elliptic.ScalarMult].
    change (elliptic.P smallParams) with 17.
    rewrite small_scalarMultiply, SetBytes_Bytes_nonneg by assumption. reflexivity.
  - intros a Ha. change (elliptic.N (elliptic.Params smallCurve)) with 19.
    pose proof (Z.mod_pos_bound a 19 ltac:(lia)).
    rewrite !small_mulBase by lia. apply smallMultiple_mod.
  - reflexivity.
Qed.

(** ** Key generation on a successful read *)

Lemma GenerateKey_read (c : elliptic.Curve) (rand rand' : io.Reader) (b : list byte) :
  1 < elliptic.N (elliptic.Params c) ->
  0 <= randLen c ->
  io.ReadFull rand (Z.to_nat (randLen c)) = (Ok b, rand') ->
  GenerateKey c rand =
  (Ok {| Public := {| Curve := c;
                      X := fst (mulBase c (scalarOf c b));
                      Y := snd (mulBase c (scalarOf c b)) |};
         D := scalarOf c b |}, rand').
Proof.
  intros Hn Hlen Hread. unfold GenerateKey.
  rewrite (randFieldElement_read c rand rand' b Hn Hlen Hread).
  cbn [bind]. unfold mulBase.
  destruct (elliptic.ScalarBaseMult c (big.Bytes (scalarOf c b))) as [x y].
  reflexivity.
Qed.

Lemma GenerateKey_keyOne : GenerateKey sm2P256 zeroReader = (Ok keyOne, zeroReader).
Proof.
  rewrite (GenerateKey_read sm2P256 zeroReader zeroReader (repeat Byte.x00 40)).
  - replace (scalarOf sm2P256 (repeat Byte.x00 40)) with 1 by (vm_compute; reflexivity).
    replace (mulBase sm2P256 1)
      with (elliptic.Gx sm2P256Params, elliptic.Gy sm2P256Params)
      by (vm_compute; reflexivity).
    reflexivity.
  - vm_compute. reflexivity.
  - vm_compute. discriminate.
  - reflexivity.
Qed.

Lemma GenerateKey_smallKey :
  GenerateKey smallCurve smallKeyReader = (Ok smallKey, io.Stream []).
Proof.
  rewrite (GenerateKey_read smallCurve smallKeyReader (io.Stream [])
             (repeat Byte.x00 7 ++ [Byte.x06])).
  - replace (scalarOf smallCurve (repeat Byte.x00 7 ++ [Byte.x06])) with 7
      by (vm_compute; reflexivity).
    replace (mulBase smallCurve 7) with (0, 6) by (vm_compute; reflexivity).
    reflexivity.
  - vm_compute. reflexivity.
  - vm_compute. discriminate.
  - reflexivity.
Qed.

(** ** Verify without identity checks *)

(** C4, as the code has it: for in-range R and S the verifier has no
    rejection for T = (R+S) mod n = 0 nor for the point at infinity; it
    always compares (E + x1) mod n with R. On a curve obeying the group
    laws, with public key d*G: when T is 0 the point is S*G and the
    answer is (E + x(S*G)) mod n == R; when the point S*G + T*P is the
    point at infinity its Go representation (0, 0) gives x1 = 0 and the
    answer is E mod n == R. *)
Theorem Verify_no_identity_rejection (c : elliptic.Curve) (pub : PublicKey)
    (hash : list byte) (d r s : Z) :
  let n := elliptic.N (elliptic.Params c) in
  let E := big.SetBytes hash in
  CurveLaws c ->
  Curve pub = c ->
  (X pub, Y pub) = mulBase c d ->
  0 <= d ->
  1 <= r <= n - 1 -> 1 <= s <= n - 1 ->
  ((r + s) mod n = 0 ->
   Verify pub hash r s = Ok ((E + fst (mulBase c s)) mod n =? r)) /\
  ((s + (r + s) * d) mod n = 0 ->
   Verify pub hash r s = Ok (E mod n =? r)).
Proof.
  intros n E L Hc HP Hd Hr Hs.
  pose proof (order_prime c L) as [Hn _]. fold n in Hn.
  split; intros H.
  - assert (Heq : (d * (r + s) + s) mod n = s mod n).
    { rewrite Z.add_mod, Z.mul_mod, H, Z.mul_0_r by lia.
      rewrite (Z.mod_0_l n) by lia. rewrite Z.add_0_l. apply Z.mod_mod. lia. }
    rewrite (Verify_of_sign_equation c pub hash d s r s L Hc HP)
      by (fold n; lia || assumption).
    reflexivity.
  - assert (Heq : (d * (r + s) + s) mod n = 0 mod n).
    { rewrite Z.mod_0_l by lia. rewrite <- H. f_equal. ring. }
    rewrite (Verify_of_sign_equation c pub hash d 0 r s L Hc HP)
      by (fold n; lia || assumption).
    rewrite (base_zero c L). cbn [fst]. fold n. fold E. rewrite Z.add_0_r. reflexivity.
Qed.

(** ** Evaluations on the curve of the package *)

Lemma Sign_keyOne_zero_R :
  Sign (io.Stream (repeat Byte.x00 80)) keyOne digestZeroR =
  (Ok (0, 57896044605178124378210172607010446383030811862478872283921904678146719522962),
   io.Stream (repeat Byte.x00 40)).
Proof.
  vm_compute. reflexivity.
Qed.

Lemma Sign_keyOne_one_one :
  Sign nonceThree keyOne digestOneOne = (Ok (1, 1), io.Stream []).
Proof.
  vm_compute. reflexivity.
Qed.

Lemma Verify_keyOne_one_one : Verify (Public keyOne) digestOneOne 1 1 = Ok true.
Proof.
  vm_compute. reflexivity.
Qed.

(** C1, counterexample: the key generated from zero bytes, a 32-byte
    digest, and a signing call that succeeds with R = 0; verification
    of the returned pair is false. *)
Lemma sign_then_verify_counterexample :
  GenerateKey sm2P256 zeroReader = (Ok keyOne, zeroReader) /\
  length digestZeroR = 32%nat /\
  Sign zeroReader keyOne digestZeroR =
  (Ok (0, 57896044605178124378210172607010446383030811862478872283921904678146719522962),
   zeroReader) /\
  Verify (Public keyOne) digestZeroR 0
    57896044605178124378210172607010446383030811862478872283921904678146719522962
  = Ok false.
Proof.
  split; [exact GenerateKey_keyOne|].
  split; [vm_compute; reflexivity|].
  split; [vm_compute; reflexivity|].
  apply Verify_out_of_range. left. lia.
Qed.

(** C2, counterexample: with eighty bytes of entropy at hand, Sign
    returns R = 0 after drawing a single forty-byte nonce; it neither
    discards the nonce nor draws another. *)
Lemma Sign_retry_counterexample :
  exists s : Z,
    Sign (io.Stream (repeat Byte.x00 80)) keyOne digestZeroR =
    (Ok (0, s), io.Stream (repeat Byte.x00 40)) /\
    ~ (1 <= 0 <= elliptic.N (elliptic.Params (Curve (Public keyOne))) - 1).
Proof.
  eexists. split; [exact Sign_keyOne_zero_R | lia].
Qed.

(** C4, counterexample: for the public key ((n-1)/2)*G and the in-range
    pair (1, 1), the point S*G + T*P is the point at infinity, and the
    verifier accepts the digest whose integer is 1. *)
Lemma Verify_infinity_counterexample :
  elliptic.IsOnCurve sm2P256 (X pubHalf) (Y pubHalf) = true /\
  (let '(x11, y11) :=
     elliptic.ScalarMult sm2P256 (X pubHalf) (Y pubHalf) (big.Bytes (1 + 1)) in
   let '(x12, y12) := elliptic.ScalarBaseMult sm2P256 (big.Bytes 1) in
   elliptic.Add sm2P256 x11 y11 x12 y12) = (0, 0) /\
  Verify pubHalf digestOne 1 1 = Ok true.
Proof.
  split; [vm_compute; reflexivity|].
  split; vm_compute; reflexivity.
Qed.

(** C9: with the same reader, Sign gives the same result on two digests
    of at least 32 bytes that agree on their first 32 bytes, because it
    reads only [hash[0:32]]; Verify reads the whole digest, and there
    are two digests with the same first 32 bytes on which it differs. *)
Theorem Sign_truncates_Verify_does_not :
  (forall (rand : io.Reader) (priv : PrivateKey) (h1 h2 : list byte),
      (32 <= length h1)%nat -> (32 <= length h2)%nat ->
      firstn 32 h1 = firstn 32 h2 ->
      Sign rand priv h1 = Sign rand priv h2) /\
  (forall (pub : PublicKey) (h1 h2 : list byte) (r s : Z),
      big.SetBytes h1 = big.SetBytes h2 ->
      Verify pub h1 r s = Verify pub h2 r s) /\
  (exists (pub : PublicKey) (h1 h2 : list byte) (r s : Z),
      (32 <= length h1)%nat /\ (32 <= length h2)%nat /\
      firstn 32 h1 = firstn 32 h2 /\
      Verify pub h1 r s = Ok true /\ Verify pub h2 r s = Ok false).
Proof.
  split; [exact Sign_first_32|]. split; [exact Verify_whole_digest|].
  exists (Public keyOne), digestOneOne, (digestOneOne ++ [Byte.x00]), 1, 1.
  split; [vm_compute; lia|]. split; [vm_compute; lia|].
  split; [vm_compute; reflexivity|].
  split; vm_compute; reflexivity.
Qed.

(** ** Instances *)

Lemma sign_then_verify_witness :
  CurveLaws smallCurve /\
  GenerateKey smallCurve smallKeyReader = (Ok smallKey, io.Stream []) /\
  length smallDigest = 32%nat /\
  Sign smallNonceReader smallKey smallDigest = (Ok (18, 11), io.Stream []) /\
  18 <> 0 /\ 11 <> 0 /\
  Verify (Public smallKey) smallDigest 18 11 = Ok true.
Proof.
  assert (H1 : Sign smallNonceReader smallKey smallDigest = (Ok (18, 11), io.Stream []))
    by (vm_compute; reflexivity).
  assert (H2 : 18 <> 0) by lia.
  assert (H3 : 11 <> 0) by lia.
  split; [exact smallCurve_laws|]. split; [exact GenerateKey_smallKey|].
  split; [reflexivity|]. split; [exact H1|]. split; [exact H2|]. split; [exact H3|].
  exact (sign_then_verify smallCurve smallKeyReader (io.Stream []) smallNonceReader
             (io.Stream []) smallKey smallDigest 18 11 smallCurve_laws
             GenerateKey_smallKey eq_refl H1 H2 H3).
Defined.

Lemma Sign_single_attempt_witness :
  (32 <= length digestZeroR)%nat /\
  1 < elliptic.N sm2P256Params /\
  io.ReadFull zeroReader 40 = (Ok (repeat Byte.x00 40), zeroReader) /\
  Sign zeroReader keyOne digestZeroR =
  (Ok (0, 57896044605178124378210172607010446383030811862478872283921904678146719522962),
   zeroReader).
Proof.
  assert (H1 : (32 <= length digestZeroR)%nat) by (vm_compute; lia).
  assert (H2 : 1 < elliptic.N (elliptic.Params (Curve (Public keyOne))))
    by (vm_compute; reflexivity).
  assert (H3 : 0 <= randLen (Curve (Public keyOne))) by (vm_compute; discriminate).
  assert (H4 : io.ReadFull zeroReader (Z.to_nat (randLen (Curve (Public keyOne))))
               = (Ok (repeat Byte.x00 40), zeroReader)) by reflexivity.
  split; [exact H1|]. split; [exact H2|]. split; [exact H4|].
  pose proof (Sign_single_attempt zeroReader zeroReader keyOne digestZeroR
                (repeat Byte.x00 40) H1 H2 H3 H4) as [H _].
  rewrite H. vm_compute. reflexivity.
Defined.

Lemma Sign_exhausted_entropy_panics_witness :
  (32 <= length digestZeroR)%nat /\
  0 <= randLen sm2P256 /\
  Z.of_nat (length (repeat Byte.x00 39)) < randLen sm2P256 /\
  Sign (io.Stream (repeat Byte.x00 39)) keyOne digestZeroR = (Panic nilDeref, io.Stream []).
Proof.
  assert (H1 : (32 <= length digestZeroR)%nat) by (vm_compute; lia).
  assert (H2 : 0 <= randLen (Curve (Public keyOne))) by (vm_compute; discriminate).
  assert (H3 : Z.of_nat (length (repeat Byte.x00 39)) < randLen (Curve (Public keyOne)))
    by (vm_compute; reflexivity).
  split; [exact H1|]. split; [exact H2|]. split; [exact H3|].
  exact (Sign_exhausted_entropy_panics (repeat Byte.x00 39) keyOne digestZeroR H1 H2 H3).
Defined.

Lemma Verify_no_identity_rejection_witness :
  CurveLaws smallCurve /\
  (X (Public smallKey), Y (Public smallKey)) = mulBase smallCurve 7 /\
  (18 + 1) mod 19 = 0 /\
  Verify (Public smallKey) [Byte.x0d] 18 1 = Ok true /\
  (11 + (1 + 11) * 7) mod 19 = 0 /\
  Verify (Public smallKey) [Byte.x01] 1 11 = Ok true.
Proof.
  assert (HP : (X (Public smallKey), Y (Public smallKey)) = mulBase smallCurve 7)
    by (vm_compute; reflexivity).
  assert (Hd : 0 <= 7) by lia.
  assert (Ha : 1 <= 18 <= elliptic.N (elliptic.Params smallCurve) - 1)
    by (change (elliptic.N (elliptic.Params smallCurve)) with 19; lia).
  assert (Hb : 1 <= 1 <= elliptic.N (elliptic.Params smallCurve) - 1)
    by (change (elliptic.N (elliptic.Params smallCurve)) with 19; lia).
  assert (Hc : 1 <= 11 <= elliptic.N (elliptic.Params smallCurve) - 1)
    by (change (elliptic.N (elliptic.Params smallCurve)) with 19; lia).
  assert (T0 : (18 + 1) mod elliptic.N (elliptic.Params smallCurve) = 0) by reflexivity.
  assert (I0 : (11 + (1 + 11) * 7) mod elliptic.N (elliptic.Params smallCurve) = 0)
    by reflexivity.
  split; [exact smallCurve_laws|]. split; [exact HP|].
  split; [reflexivity|]. split.
  - rewrite (proj1 (Verify_no_identity_rejection smallCurve (Public smallKey)
                      [Byte.x0d] 7 18 1 smallCurve_laws eq_refl HP Hd Ha Hb) T0).
    vm_compute. reflexivity.
  - split; [reflexivity|].
    rewrite (proj2 (Verify_no_identity_rejection smallCurve (Public smallKey)
                      [Byte.x01] 7 1 11 smallCurve_laws eq_refl HP Hd Hb Hc) I0).
    vm_compute. reflexivity.
Defined.

Lemma Verify_rejects_out_of_range_witness :
  ~ (1 <= elliptic.N sm2P256Params <= elliptic.N sm2P256Params - 1) /\
  Verify (Public keyOne) digestOneOne (elliptic.N sm2P256Params) 1 = Ok false /\
  Verify (Public keyOne) digestOneOne 0 1 = Ok false /\
  Verify (Public keyOne) digestOneOne 1 (elliptic.N sm2P256Params) = Ok false /\
  Verify (Public keyOne) digestOneOne 1 0 = Ok false.
Proof.
  assert (H : 1 < elliptic.N sm2P256Params) by (vm_compute; reflexivity).
  split; [lia|].
  split; [|split; [|split]];
    apply (Verify_rejects_out_of_range (Public keyOne) digestOneOne);
    change (elliptic.N (elliptic.Params (Curve (Public keyOne))))
      with (elliptic.N sm2P256Params); lia.
Defined.

Lemma random_scalar_generation_witness :
  elliptic.BitSize sm2P256Params = bitlength (elliptic.N sm2P256Params) /\
  1 < elliptic.N sm2P256Params /\
  io.ReadFull zeroReader 40 = (Ok (repeat Byte.x00 40), zeroReader) /\
  randFieldElement sm2P256 zeroReader = (Ok 1, zeroReader) /\
  generateRandK zeroReader sm2P256 = (Ok (Some 1), zeroReader).
Proof.
  assert (H1 : elliptic.BitSize (elliptic.Params sm2P256)
               = bitlength (elliptic.N (elliptic.Params sm2P256)))
    by (vm_compute; reflexivity).
  assert (H2 : 1 < elliptic.N (elliptic.Params sm2P256)) by (vm_compute; reflexivity).
  assert (H3 : io.ReadFull zeroReader
                 (Z.to_nat (bitlength (elliptic.N (elliptic.Params sm2P256)) / 8 + 8))
               = (Ok (repeat Byte.x00 40), zeroReader)) by (vm_compute; reflexivity).
  split; [exact H1|]. split; [exact H2|]. split; [reflexivity|].
  pose proof (random_scalar_generation sm2P256 zeroReader zeroReader
                (repeat Byte.x00 40) H1 H2 H3) as (Ha & Hb & _).
  split.
  - rewrite Ha. vm_compute. reflexivity.
  - rewrite Hb. vm_compute. reflexivity.
Defined.

Lemma Sign_digest_length_check_witness :
  (length (repeat Byte.x00 31) < 32)%nat /\
  Sign zeroReader keyOne (repeat Byte.x00 31) = (Err errShortHash, zeroReader) /\
  (32 <= length digestZeroR)%nat /\
  (forall e : error, fst (Sign zeroReader keyOne digestZeroR) <> Err e).
Proof.
  assert (H1 : (length (repeat Byte.x00 31) < 32)%nat) by (cbn; lia).
  assert (H2 : (32 <= length digestZeroR)%nat) by (vm_compute; lia).
  split; [exact H1|]. split.
  - exact (proj1 (Sign_digest_length_check zeroReader keyOne (repeat Byte.x00 31)) H1).
  - split; [exact H2|].
    exact (proj2 (Sign_digest_length_check zeroReader keyOne digestZeroR) H2).
Defined.

Lemma Sign_truncates_Verify_does_not_witness :
  (32 <= length digestOneOne)%nat /\
  (32 <= length (digestOneOne ++ [Byte.x00]))%nat /\
  firstn 32 digestOneOne = firstn 32 (digestOneOne ++ [Byte.x00]) /\
  Sign nonceThree keyOne digestOneOne = Sign nonceThree keyOne (digestOneOne ++ [Byte.x00]).
Proof.
  assert (H1 : (32 <= length digestOneOne)%nat) by (vm_compute; lia).
  assert (H2 : (32 <= length (digestOneOne ++ [Byte.x00]))%nat) by (vm_compute; lia).
  assert (H3 : firstn 32 digestOneOne = firstn 32 (digestOneOne ++ [Byte.x00]))
    by (vm_compute; reflexivity).
  split; [exact H1|]. split; [exact H2|]. split; [exact H3|].
  exact (proj1 Sign_truncates_Verify_does_not nonceThree keyOne digestOneOne
           (digestOneOne ++ [Byte.x00]) H1 H2 H3).
Defined.

(** ** Canonical big-endian bytes *)

Lemma byte_of_mod (z : Z) : byte_of (z mod 256) = byte_of z.
Proof.
  unfold byte_of. rewrite Z.mod_mod by lia. reflexivity.
Qed.

Lemma SetBytes_nil : big.SetBytes [] = 0.
Proof.
  reflexivity.
Qed.

Lemma SetBytes_lower (ds : list byte) :
  ds <> [] -> noLeadingZero ds ->
  256 ^ (Z.of_nat (length ds) - 1) <= big.SetBytes ds.
Proof.
  destruct ds as [|b ds]; [congruence|]. intros _ Hb. cbn [noLeadingZero] in Hb.
  rewrite SetBytes_cons. change (length (b :: ds)) with (Datatypes.S (length ds)).
  rewrite Nat2Z.inj_succ. replace (Z.succ (Z.of_nat (length ds)) - 1)
    with (Z.of_nat (length ds)) by lia.
  pose proof (byte_val_range b). pose proof (SetBytes_range ds).
  assert (0 < 256 ^ Z.of_nat (length ds)) by (apply Z.pow_pos_nonneg; lia).
  nia.
Qed.

Lemma noLeadingZero_app (l1 l2 : list byte) :
  l1 <> [] -> noLeadingZero (l1 ++ l2) -> noLeadingZero l1.
Proof.
  destruct l1; [congruence | intros _ H; exact H].
Qed.

Lemma digits_of_bytes (ds : list byte) (fuel : nat) :
  (length ds <= fuel)%nat -> noLeadingZero ds ->
  big.digits fuel (big.SetBytes ds) = rev ds.
Proof.
  revert fuel. induction ds as [|b ds IH] using rev_ind; intros fuel Hlen Hnz.
  - destruct fuel; reflexivity.
  - rewrite length_app in Hlen. cbn [length] in Hlen.
    destruct fuel as [|fuel]; [lia|].
    rewrite rev_app_distr. cbn [rev app]. rewrite SetBytes_snoc.
    cbn [big.digits]. pose proof (byte_val_range b) as Hb.
    pose proof (SetBytes_range ds) as Hds.
    assert (Hpos : big.SetBytes ds * 256 + byte_val b <> 0).
    { destruct ds as [|d ds].
      - cbn [app noLeadingZero] in Hnz. rewrite SetBytes_nil. lia.
      - assert (Hnz' : noLeadingZero (d :: ds)) by exact Hnz.
        pose proof (SetBytes_lower (d :: ds) ltac:(discriminate) Hnz').
        assert (0 < 256 ^ (Z.of_nat (length (d :: ds)) - 1)).
        { apply Z.pow_pos_nonneg; [lia|]. cbn [length]. lia. }
        lia. }
    destruct (Z.eqb_spec (big.SetBytes ds * 256 + byte_val b) 0) as [E|_]; [lia|].
    f_equal.
    + rewrite <- byte_of_mod. rewrite Z.add_comm, Z.mod_add by lia.
      rewrite Z.mod_small by lia. apply byte_of_val.
    + rewrite Z.add_comm, Z.div_add by lia. rewrite Z.div_small by lia.
      rewrite Z.add_0_l. apply IH; [lia|].
      destruct ds as [|d ds]; [exact I | exact Hnz].
Qed.

Lemma Bytes_SetBytes (ds : list byte) :
  noLeadingZero ds -> big.Bytes (big.SetBytes ds) = ds.
Proof.
  intros Hnz. unfold big.Bytes. pose proof (SetBytes_range ds) as Hr.
  rewrite Z.abs_eq by lia. rewrite digits_of_bytes; [apply rev_involutive | | exact Hnz].
  destruct ds as [|b ds]; [cbn; lia|].
  pose proof (SetBytes_lower (b :: ds) ltac:(discriminate) Hnz) as Hl.
  set (n := length (b :: ds)) in *.
  assert (Hn : (1 <= n)%nat) by (subst n; cbn; lia).
  assert (Hlog : Z.of_nat n - 1 <= Z.log2 (big.SetBytes (b :: ds))).
  { apply Z.log2_le_pow2.
    - assert (0 < 256 ^ (Z.of_nat n - 1)) by (apply Z.pow_pos_nonneg; lia). lia.
    - assert (2 ^ (Z.of_nat n - 1) <= 256 ^ (Z.of_nat n - 1))
        by (apply Z.pow_le_mono_l; lia). lia. }
  lia.
Qed.

Lemma digits_noLeadingZero (fuel : nat) (z : Z) :
  0 <= z < 2 ^ Z.of_nat fuel -> noLeadingZero (rev (big.digits fuel z)).
Proof.
  revert z. induction fuel as [|fuel IH]; intros z Hz; [exact I|].
  cbn [big.digits]. destruct (Z.eqb_spec z 0) as [|Hnz]; [exact I|].
  cbn [rev]. rewrite Nat2Z.inj_succ, Z.pow_succ_r in Hz by lia.
  assert (Hq : 0 <= z / 256 < 2 ^ Z.of_nat fuel).
  { split; [apply Z.div_pos; lia|]. apply Z.div_lt_upper_bound; lia. }
  specialize (IH (z / 256) Hq).
  destruct (rev (big.digits fuel (z / 256))) as [|d ds] eqn:E.
  - cbn [app noLeadingZero]. rewrite byte_val_of.
    assert (Hz0 : z / 256 = 0).
    { pose proof (digits_value fuel (z / 256) Hq) as Hv. rewrite E in Hv.
      rewrite SetBytes_nil in Hv. lia. }
    pose proof (Z.div_mod z 256 ltac:(lia)). lia.
  - exact IH.
Qed.

Lemma Bytes_noLeadingZero (x : Z) : noLeadingZero (big.Bytes x).
Proof.
  unfold big.Bytes. apply digits_noLeadingZero.
  split; [lia|]. apply log2_fuel. lia.
Qed.

Lemma Bytes_nonempty (x : Z) : x <> 0 -> big.Bytes x <> [].
Proof.
  intros Hx E. pose proof (SetBytes_Bytes x) as H. rewrite E, SetBytes_nil in H. lia.
Qed.

Lemma Bytes_length_bound (x : Z) (L : nat) :
  Z.abs x < 256 ^ Z.of_nat L -> (length (big.Bytes x) <= L)%nat.
Proof.
  intros Hx. destruct (Nat.le_gt_cases (length (big.Bytes x)) L) as [|Hgt]; [assumption|].
  exfalso.
  assert (Hne : big.Bytes x <> []) by (intros E; rewrite E in Hgt; cbn in Hgt; lia).
  pose proof (SetBytes_lower (big.Bytes x) Hne (Bytes_noLeadingZero x)) as Hl.
  rewrite SetBytes_Bytes in Hl.
  assert (256 ^ Z.of_nat L <= 256 ^ (Z.of_nat (length (big.Bytes x)) - 1))
    by (apply Z.pow_le_mono_r; lia).
  lia.
Qed.

(** ** Bits of bytes *)

Lemma lor_shiftl_byte (acc v : Z) :
  0 <= acc -> 0 <= v < 256 -> Z.lor (Z.shiftl acc 8) v = acc * 256 + v.
Proof.
  intros Ha Hv.
  assert (Hland : Z.land (Z.shiftl acc 8) v = 0).
  { apply Z.bits_inj'. intros n Hn. rewrite Z.land_spec, Z.bits_0.
    destruct (Z.lt_ge_cases n 8) as [Hlt|Hge].
    - rewrite Z.shiftl_spec_low by assumption. reflexivity.
    - rewrite (Z.bits_above_log2 v n); [apply andb_false_r | lia |].
      destruct (Z.eq_dec v 0) as [->|Hnz]; [cbn; lia|].
      assert (Z.log2 v < 8) by (apply Z.log2_lt_pow2; lia). lia. }
  rewrite <- Z.lxor_lor by assumption.
  rewrite <- Z.add_nocarry_lxor by assumption.
  rewrite Z.shiftl_mul_pow2 by lia. reflexivity.
Qed.

Lemma land_0x7f_small (v : Z) : 0 <= v < 128 -> Z.land v 0x7f = v.
Proof.
  intros H. change 0x7f with (Z.ones 7). rewrite Z.land_ones by lia.
  apply Z.mod_small. exact H.
Qed.

Lemma land_0x80_small (v : Z) : 0 <= v < 128 -> Z.land v 0x80 = 0.
Proof.
  intros H. rewrite <- (land_0x7f_small v H), <- Z.land_assoc. apply Z.land_0_r.
Qed.

Lemma byte_val_of_small (v : Z) : 0 <= v < 256 -> byte_val (byte_of v) = v.
Proof.
  intros H. rewrite byte_val_of. apply Z.mod_small. exact H.
Qed.

(** ** Lengths: written, then parsed *)

Lemma parseLongLength_digits (ds rest : list byte) (acc : Z) :
  0 <= acc ->
  0 < acc \/ (ds <> [] /\ noLeadingZero ds) ->
  acc * 256 ^ Z.of_nat (length ds) + big.SetBytes ds < 2 ^ 31 ->
  asn1.parseLongLength (length ds) acc (ds ++ rest)
  = Ok (acc * 256 ^ Z.of_nat (length ds) + big.SetBytes ds, rest).
Proof.
  revert acc. induction ds as [|b ds IH]; intros acc Hacc Hnz Hbound.
  - cbn [length asn1.parseLongLength app]. rewrite SetBytes_nil.
    change (256 ^ Z.of_nat 0) with 1. do 2 f_equal. lia.
  - change (length (b :: ds)) with (Datatypes.S (length ds)) in *.
    cbn [asn1.parseLongLength app].
    rewrite Nat2Z.inj_succ, Z.pow_succ_r in * by lia.
    rewrite SetBytes_cons in *.
    pose proof (byte_val_range b) as Hb. pose proof (SetBytes_range ds) as Hds.
    assert (Hp : 0 < 256 ^ Z.of_nat (length ds)) by (apply Z.pow_pos_nonneg; lia).
    change (Z.shiftl 1 23) with 8388608. change (2 ^ 31) with 2147483648 in Hbound.
    destruct (Z.geb_spec acc 8388608) as [Hbig|_]; [nia|].
    rewrite lor_shiftl_byte by assumption.
    assert (Hacc' : 0 < acc * 256 + byte_val b).
    { destruct Hnz as [H|[_ H]]; [lia|]. cbn [noLeadingZero] in H. lia. }
    destruct (Z.eqb_spec (acc * 256 + byte_val b) 0) as [E|_]; [lia|].
    rewrite IH; [ | lia | left; exact Hacc' | change (2 ^ 31) with 2147483648; nia].
    do 2 f_equal. ring.
Qed.

Lemma Bytes_length_int31 (i : Z) :
  128 <= i < 2 ^ 31 -> (1 <= length (big.Bytes i) <= 4)%nat.
Proof.
  intros H. split.
  - pose proof (Bytes_nonempty i ltac:(lia)).
    destruct (big.Bytes i); [congruence | cbn; lia].
  - apply Bytes_length_bound. rewrite Z.abs_eq by lia.
    change (256 ^ Z.of_nat 4) with 4294967296. change (2 ^ 31) with 2147483648 in H. lia.
Qed.

Lemma parse_appendLength (cls tg : Z) (cmp : bool) (n : nat) (rest : list byte) (hd : byte) :
  Z.of_nat n < 2 ^ 31 ->
  Z.shiftr (byte_val hd) 6 = cls ->
  (Z.land (byte_val hd) 0x20 =? 0x20) = cmp ->
  Z.land (byte_val hd) 0x1f = tg ->
  tg <> 0x1f ->
  asn1.parseTagAndLength (hd :: asn1.appendLength n ++ rest)
  = Ok ({| asn1.class := cls; asn1.tag := tg; asn1.length := n;
           asn1.isCompound := cmp |}, rest).
Proof.
  intros Hn Hcls Hcmp Htg Hne. unfold asn1.parseTagAndLength.
  rewrite Hcls, Hcmp, Htg.
  destruct (Z.eqb_spec tg 0x1f) as [|_]; [contradiction|].
  unfold asn1.appendLength.
  destruct (Nat.ltb_spec n 128) as [Hshort|Hlong].
  - cbn [app]. rewrite byte_val_of_small by lia.
    rewrite land_0x80_small by lia. cbn [Z.eqb].
    rewrite land_0x7f_small by lia. rewrite Nat2Z.id. reflexivity.
  - cbn [app].
    pose proof (Bytes_length_int31 (Z.of_nat n) ltac:(lia)) as Hl.
    set (l := big.Bytes (Z.of_nat n)) in *.
    assert (Hlen : Z.of_nat (length l) = 1 \/ Z.of_nat (length l) = 2 \/
                   Z.of_nat (length l) = 3 \/ Z.of_nat (length l) = 4) by lia.
    assert (Hfirst : (Z.land (byte_val (byte_of (Z.lor 0x80 (Z.of_nat (length l))))) 0x80
                      =? 0) = false
                     /\ Z.to_nat (Z.land (byte_val (byte_of (Z.lor 0x80
                          (Z.of_nat (length l))))) 0x7f) = length l).
    { destruct Hlen as [E|[E|[E|E]]]; rewrite E; split; try reflexivity;
        rewrite <- (Nat2Z.id (length l)), E; reflexivity. }
    destruct Hfirst as [H1 H2]. rewrite H1, H2.
    destruct (Nat.eqb_spec (length l) 0) as [E0|_]; [lia|].
    rewrite (parseLongLength_digits l rest 0); [ | lia | right | ].
    + cbn [bind]. rewrite Z.mul_0_l, Z.add_0_l. unfold l.
      rewrite SetBytes_Bytes_nonneg by lia.
      destruct (Z.ltb_spec (Z.of_nat n) 0x80) as [|_]; [lia|].
      rewrite Nat2Z.id. reflexivity.
    + split; [intros E; rewrite E in Hl; cbn in Hl; lia | apply Bytes_noLeadingZero].
    + rewrite Z.mul_0_l, Z.add_0_l. unfold l. rewrite SetBytes_Bytes_nonneg by lia.
      exact Hn.
Qed.

Lemma parseHeader_written (tg : Z) (cmp : bool) (content rest : list byte) :
  (tg = asn1.TagInteger /\ cmp = false) \/ (tg = asn1.TagSequence /\ cmp = true) ->
  Z.of_nat (length content) < 2 ^ 31 ->
  asn1.parseHeader tg cmp
    (asn1.appendTagAndLength
       {| asn1.class := asn1.ClassUniversal; asn1.tag := tg;
          asn1.length := length content; asn1.isCompound := cmp |}
     ++ content ++ rest)
  = Ok (content, rest).
Proof.
  intros Htag Hlen. unfold asn1.parseHeader, asn1.appendTagAndLength.
  cbn [asn1.class asn1.tag asn1.length asn1.isCompound].
  rewrite <- app_comm_cons.
  destruct Htag as [[-> ->] | [-> ->]].
  - rewrite (parse_appendLength 0 2 false) by (assumption || reflexivity || discriminate).
    cbn [bind asn1.class asn1.tag asn1.length asn1.isCompound].
    change (negb (0 =? asn1.ClassUniversal) || negb (2 =? asn1.TagInteger)
            || negb (Bool.eqb false false)) with false.
    cbv iota. rewrite length_app.
    destruct (Nat.ltb_spec (length content + length rest) (length content)); [lia|].
    rewrite firstn_app, skipn_app, Nat.sub_diag, firstn_all, skipn_all.
    cbn [firstn skipn app]. rewrite app_nil_r. reflexivity.
  - rewrite (parse_appendLength 0 16 true) by (assumption || reflexivity || discriminate).
    cbn [bind asn1.class asn1.tag asn1.length asn1.isCompound].
    change (negb (0 =? asn1.ClassUniversal) || negb (16 =? asn1.TagSequence)
            || negb (Bool.eqb true true)) with false.
    cbv iota. rewrite length_app.
    destruct (Nat.ltb_spec (length content + length rest) (length content)); [lia|].
    rewrite firstn_app, skipn_app, Nat.sub_diag, firstn_all, skipn_all.
    cbn [firstn skipn app]. rewrite app_nil_r. reflexivity.
Qed.

(** ** INTEGER contents: written, then parsed *)

Lemma notByte_involutive (b : byte) :
  byte_of (Z.lxor (byte_val (byte_of (Z.lxor (byte_val b) 0xff))) 0xff) = b.
Proof.
  destruct b; reflexivity.
Qed.

Lemma map_notByte_involutive (l : list byte) :
  map (fun b => byte_of (Z.lxor (byte_val b) 0xff))
      (map (fun b => byte_of (Z.lxor (byte_val b) 0xff)) l) = l.
Proof.
  induction l as [|b l IH]; [reflexivity|].
  cbn [map]. rewrite notByte_involutive, IH. reflexivity.
Qed.

Lemma notByte_high (b : byte) :
  (Z.land (byte_val (byte_of (Z.lxor (byte_val b) 0xff))) 0x80 =? 0)
  = negb (Z.land (byte_val b) 0x80 =? 0).
Proof.
  destruct b; reflexivity.
Qed.

Lemma notByte_ff (b : byte) :
  (byte_val (byte_of (Z.lxor (byte_val b) 0xff)) =? 0xff) = (byte_val b =? 0).
Proof.
  destruct b; reflexivity.
Qed.

Lemma high_not_zero (b : byte) :
  (Z.land (byte_val b) 0x80 =? 0) = false -> (byte_val b =? 0) = false.
Proof.
  destruct b; cbn; congruence.
Qed.

Lemma low_not_ff (b : byte) :
  (Z.land (byte_val b) 0x80 =? 0) = true -> (byte_val b =? 0xff) = false.
Proof.
  destruct b; cbn; congruence.
Qed.

Lemma high_is_0x80 (b : byte) :
  (Z.land (byte_val b) 0x80 =? 0x80) = negb (Z.land (byte_val b) 0x80 =? 0).
Proof.
  destruct b; reflexivity.
Qed.

Lemma parseBigInt_plain (content : list byte) :
  asn1.checkInteger content = Ok tt ->
  asn1.highBit content = false ->
  asn1.parseBigInt content = Ok (big.SetBytes content).
Proof.
  intros Hc Hh. unfold asn1.parseBigInt. rewrite Hc. cbn [bind].
  rewrite Hh, andb_false_r. reflexivity.
Qed.

Lemma parseBigInt_complement (content : list byte) :
  asn1.checkInteger content = Ok tt ->
  asn1.highBit content = true ->
  asn1.parseBigInt content
  = Ok (- (big.SetBytes (map (fun b => byte_of (Z.lxor (byte_val b) 0xff)) content) + 1)).
Proof.
  intros Hc Hh. unfold asn1.parseBigInt. rewrite Hc. cbn [bind]. rewrite Hh.
  destruct content as [|b tl]; [discriminate Hh|]. reflexivity.
Qed.

Lemma SetBytes_zero_cons (l : list byte) : big.SetBytes (Byte.x00 :: l) = big.SetBytes l.
Proof.
  rewrite SetBytes_cons. change (byte_val Byte.x00) with 0. lia.
Qed.

Lemma parseBigInt_makeBigInt (n : Z) : asn1.parseBigInt (asn1.makeBigInt n) = Ok n.
Proof.
  unfold asn1.makeBigInt, big.Sign.
  destruct (Z.ltb_spec (Z.sgn n) 0) as [Hneg|Hnn].
  - (* negative: two's complement of -n-1 *)
    assert (Hm : 0 <= - n - 1) by lia.
    pose proof (SetBytes_Bytes_nonneg (- n - 1) Hm) as Hv.
    pose proof (Bytes_noLeadingZero (- n - 1)) as Hnz.
    destruct (big.Bytes (- n - 1)) as [|c tl] eqn:E.
    + cbn [map length Nat.eqb orb]. rewrite SetBytes_nil in Hv.
      rewrite parseBigInt_complement by reflexivity.
      change (big.SetBytes _) with 0. f_equal. lia.
    + cbn [map length Nat.eqb orb asn1.highBit]. cbn [noLeadingZero] in Hnz.
      rewrite notByte_high, negb_involutive.
      destruct (Z.land (byte_val c) 128 =? 0) eqn:Eh; cbn [negb].
      * (* the complemented leading byte has its top bit set *)
        rewrite parseBigInt_complement.
        -- cbn [map]. rewrite notByte_involutive, map_notByte_involutive, Hv.
           f_equal. lia.
        -- unfold asn1.checkInteger. destruct tl as [|c1 tl]; [reflexivity|].
           cbn [map]. rewrite notByte_ff.
           destruct (Z.eqb_spec (byte_val c) 0) as [|_]; [contradiction|].
           rewrite (high_not_zero (byte_of (Z.lxor (byte_val c) 255))); [reflexivity|].
           rewrite notByte_high, Eh. reflexivity.
        -- cbn [asn1.highBit]. rewrite notByte_high, Eh. reflexivity.
      * (* padded with 0xff *)
        rewrite parseBigInt_complement.
        -- cbn [map]. rewrite notByte_involutive, map_notByte_involutive.
           change (byte_of (Z.lxor (byte_val Byte.xff) 255)) with Byte.x00.
           rewrite SetBytes_zero_cons, Hv. f_equal. lia.
        -- unfold asn1.checkInteger.
           change (byte_val Byte.xff =? 0) with false.
           change (byte_val Byte.xff =? 255) with true.
           rewrite high_is_0x80, notByte_high, Eh. reflexivity.
        -- reflexivity.
  - destruct (Z.eqb_spec (Z.sgn n) 0) as [Hz|Hpos].
    + assert (n = 0) by lia. subst n. reflexivity.
    + assert (Hn : 0 < n) by lia.
      pose proof (SetBytes_Bytes_nonneg n ltac:(lia)) as Hv.
      pose proof (Bytes_noLeadingZero n) as Hnz.
      pose proof (Bytes_nonempty n ltac:(lia)) as Hne.
      destruct (big.Bytes n) as [|c tl] eqn:E; [congruence|].
      cbn [length Nat.ltb Nat.leb andb asn1.highBit]. cbn [noLeadingZero] in Hnz.
      change (0 <? Datatypes.S (length tl))%nat with true. cbn [andb].
      destruct (Z.land (byte_val c) 128 =? 0) eqn:Eh; cbn [negb].
      * rewrite parseBigInt_plain; [rewrite Hv; reflexivity | |].
        -- unfold asn1.checkInteger. destruct tl as [|c1 tl]; [reflexivity|].
           destruct (Z.eqb_spec (byte_val c) 0) as [|_]; [contradiction|].
           rewrite (low_not_ff c Eh). reflexivity.
        -- cbn [asn1.highBit]. rewrite Eh. reflexivity.
      * rewrite parseBigInt_plain; [rewrite SetBytes_zero_cons, Hv; reflexivity | |].
        -- unfold asn1.checkInteger.
           change (byte_val Byte.x00 =? 0) with true.
           change (byte_val Byte.x00 =? 255) with false.
           rewrite Eh. reflexivity.
        -- reflexivity.
Qed.

(** ** The envelope: written, then parsed *)

Lemma appendTagAndLength_length (t : asn1.tagAndLength) :
  (1 <= length (asn1.appendTagAndLength t))%nat.
Proof.
  unfold asn1.appendTagAndLength. cbn [length]. lia.
Qed.

Lemma parseBigIntField_written (n : Z) (rest : list byte) :
  Z.of_nat (length (asn1.makeBigInt n)) < 2 ^ 31 ->
  asn1.parseBigIntField (asn1.marshalBigInt n ++ rest) = Ok (n, rest).
Proof.
  intros Hlen. unfold asn1.parseBigIntField, asn1.marshalBigInt.
  rewrite <- app_assoc.
  rewrite parseHeader_written by (auto || assumption).
  cbn [bind]. rewrite parseBigInt_makeBigInt. reflexivity.
Qed.

Lemma marshalBigInt_length (n : Z) :
  (length (asn1.makeBigInt n) < length (asn1.marshalBigInt n))%nat.
Proof.
  unfold asn1.marshalBigInt. rewrite length_app.
  match goal with |- context [asn1.appendTagAndLength ?t] =>
    pose proof (appendTagAndLength_length t) end. lia.
Qed.

Lemma Unmarshal_envelope (r s : Z) (extra rest : list byte) :
  Z.of_nat (length (asn1.marshalBigInt r ++ asn1.marshalBigInt s ++ extra)) < 2 ^ 31 ->
  asn1.Unmarshal (envelope r s extra ++ rest) = Ok ({| R := r; S := s |}, rest).
Proof.
  intros Hlen. unfold asn1.Unmarshal, envelope. rewrite <- app_assoc.
  rewrite parseHeader_written by (auto || assumption).
  cbn [bind]. rewrite !length_app in Hlen.
  pose proof (marshalBigInt_length r). pose proof (marshalBigInt_length s).
  rewrite parseBigIntField_written by lia. cbn [bind].
  rewrite parseBigIntField_written by lia. reflexivity.
Qed.

Lemma Marshal_envelope (r s : Z) :
  asn1.Marshal {| R := r; S := s |} = Ok (envelope r s []).
Proof.
  unfold asn1.Marshal, envelope. cbn [R S]. rewrite !app_nil_r. reflexivity.
Qed.

(** ** Parsed, hence written *)

Lemma parseLongLength_inv (nb : nat) (acc len : Z) (bytes rest : list byte) :
  0 <= acc ->
  asn1.parseLongLength nb acc bytes = Ok (len, rest) ->
  exists ds : list byte,
    bytes = ds ++ rest /\ length ds = nb /\
    len = acc * 256 ^ Z.of_nat nb + big.SetBytes ds /\
    (acc = 0 -> noLeadingZero ds).
Proof.
  revert acc bytes. induction nb as [|nb IH]; intros acc bytes Hacc H.
  - cbn [asn1.parseLongLength] in H. injection H as <- <-.
    exists []. rewrite SetBytes_nil. change (256 ^ Z.of_nat 0) with 1.
    repeat split; try reflexivity; try exact I. lia.
  - cbn [asn1.parseLongLength] in H. destruct bytes as [|b bytes]; [discriminate|].
    destruct (acc >=? Z.shiftl 1 23); [discriminate|].
    pose proof (byte_val_range b) as Hb.
    rewrite lor_shiftl_byte in H by assumption.
    destruct (Z.eqb_spec (acc * 256 + byte_val b) 0) as [|Hnz]; [discriminate|].
    destruct (IH (acc * 256 + byte_val b) bytes ltac:(lia) H)
      as (ds & -> & Hlen & Hv & _).
    exists (b :: ds). split; [reflexivity|]. split; [cbn [length]; lia|]. split.
    + rewrite Hv, SetBytes_cons, Hlen, Nat2Z.inj_succ, Z.pow_succ_r by lia. ring.
    + intros ->. cbn [noLeadingZero]. lia.
Qed.

Lemma head_byte_rebuild (b : byte) :
  byte_of (Z.lor (if Z.land (byte_val b) 0x20 =? 0x20
                  then Z.lor (Z.shiftl (Z.shiftr (byte_val b) 6) 6) 0x20
                  else Z.shiftl (Z.shiftr (byte_val b) 6) 6)
                 (Z.land (byte_val b) 0x1f)) = b.
Proof.
  destruct b; reflexivity.
Qed.

Lemma short_length_rebuild (b : byte) :
  (Z.land (byte_val b) 0x80 =? 0) = true ->
  asn1.appendLength (Z.to_nat (Z.land (byte_val b) 0x7f)) = [b].
Proof.
  destruct b; intros H; try discriminate H; reflexivity.
Qed.

Lemma long_length_rebuild (b : byte) :
  (Z.land (byte_val b) 0x80 =? 0) = false ->
  byte_of (Z.lor 0x80 (Z.land (byte_val b) 0x7f)) = b.
Proof.
  destruct b; intros H; try discriminate H; reflexivity.
Qed.

Lemma parseTagAndLength_inv (bytes rest : list byte) (t : asn1.tagAndLength) :
  asn1.parseTagAndLength bytes = Ok (t, rest) ->
  bytes = asn1.appendTagAndLength t ++ rest.
Proof.
  unfold asn1.parseTagAndLength. destruct bytes as [|b1 bytes]; [discriminate|].
  destruct (Z.land (byte_val b1) 31 =? 31); [discriminate|].
  destruct bytes as [|b2 bytes]; [discriminate|].
  destruct (Z.land (byte_val b2) 128 =? 0) eqn:Eshort.
  - intros [= <- <-]. unfold asn1.appendTagAndLength.
    cbn [asn1.class asn1.tag asn1.length asn1.isCompound].
    rewrite head_byte_rebuild, short_length_rebuild by assumption. reflexivity.
  - destruct (Nat.eqb_spec (Z.to_nat (Z.land (byte_val b2) 127)) 0) as [|Hnb];
      [discriminate|].
    destruct (asn1.parseLongLength _ 0 bytes) as [[len rest'] | e | w] eqn:EL;
      cbn [bind]; try discriminate.
    destruct (Z.ltb_spec len 128) as [|Hlong]; [discriminate|].
    intros [= <- <-].
    apply parseLongLength_inv in EL; [|lia].
    destruct EL as (ds & -> & Hlen & Hv & Hnz). specialize (Hnz eq_refl).
    rewrite Z.mul_0_l, Z.add_0_l in Hv.
    unfold asn1.appendTagAndLength.
    cbn [asn1.class asn1.tag asn1.length asn1.isCompound].
    rewrite head_byte_rebuild. unfold asn1.appendLength.
    destruct (Nat.ltb_spec (Z.to_nat len) 128) as [|_]; [lia|].
    rewrite Z2Nat.id by lia. rewrite Hv, Bytes_SetBytes by assumption.
    rewrite Hlen, Z2Nat.id by (apply Z.land_nonneg; right; lia).
    rewrite long_length_rebuild by assumption. reflexivity.
Qed.

Lemma parseHeader_inv (tg : Z) (cmp : bool) (bytes inner rest : list byte) :
  asn1.parseHeader tg cmp bytes = Ok (inner, rest) ->
  bytes = asn1.appendTagAndLength
            {| asn1.class := asn1.ClassUniversal; asn1.tag := tg;
               asn1.length := length inner; asn1.isCompound := cmp |}
          ++ inner ++ rest.
Proof.
  unfold asn1.parseHeader.
  destruct (asn1.parseTagAndLength bytes) as [[t rest0] | e | w] eqn:ET;
    cbn [bind]; try discriminate.
  destruct (Z.eqb_spec (asn1.class t) asn1.ClassUniversal) as [Hc|]; [|discriminate].
  destruct (Z.eqb_spec (asn1.tag t) tg) as [Ht|]; [|discriminate].
  destruct (Bool.eqb (asn1.isCompound t) cmp) eqn:Hb; [|discriminate].
  cbn [negb orb].
  destruct (Nat.ltb_spec (length rest0) (asn1.length t)) as [|Hlen]; [discriminate|].
  intros [= <- <-]. apply Bool.eqb_prop in Hb.
  apply parseTagAndLength_inv in ET. rewrite ET.
  rewrite firstn_skipn. rewrite firstn_length_le by assumption.
  destruct t as [c tg' l cm]. cbn [asn1.class asn1.tag asn1.length asn1.isCompound] in *.
  subst. reflexivity.
Qed.

Lemma notByte_zero (b : byte) :
  (byte_val (byte_of (Z.lxor (byte_val b) 0xff)) =? 0) = (byte_val b =? 0xff).
Proof.
  destruct b; reflexivity.
Qed.

Lemma makeBigInt_pos (v : Z) :
  0 < v ->
  asn1.makeBigInt v
  = if asn1.highBit (big.Bytes v) then Byte.x00 :: big.Bytes v else big.Bytes v.
Proof.
  intros H. unfold asn1.makeBigInt, big.Sign.
  destruct (Z.ltb_spec (Z.sgn v) 0); [lia|].
  destruct (Z.eqb_spec (Z.sgn v) 0); [lia|].
  pose proof (Bytes_nonempty v ltac:(lia)).
  destruct (big.Bytes v); [congruence | reflexivity].
Qed.

Lemma makeBigInt_neg (v : Z) :
  v < 0 ->
  asn1.makeBigInt v
  = let bytes := map (fun b => byte_of (Z.lxor (byte_val b) 0xff)) (big.Bytes (- v - 1)) in
    if (length bytes =? 0)%nat || negb (asn1.highBit bytes)
    then Byte.xff :: bytes else bytes.
Proof.
  intros H. unfold asn1.makeBigInt, big.Sign.
  destruct (Z.ltb_spec (Z.sgn v) 0); [reflexivity | lia].
Qed.

Lemma parseBigInt_inv (inner : list byte) (v : Z) :
  asn1.parseBigInt inner = Ok v -> inner = asn1.makeBigInt v.
Proof.
  unfold asn1.parseBigInt.
  destruct (asn1.checkInteger inner) as [[] | e | w] eqn:Hc; cbn [bind]; try discriminate.
  destruct inner as [|b0 tl]; [discriminate Hc|].
  change (0 <? length (b0 :: tl))%nat with true. cbn [andb asn1.highBit].
  pose proof (byte_val_range b0) as Hb0.
  destruct (Z.land (byte_val b0) 128 =? 0) eqn:Eh; cbn [negb]; intros [= <-].
  - (* top bit clear: a non-negative integer *)
    destruct tl as [|b1 tl].
    + destruct (Z.eq_dec (byte_val b0) 0) as [Ez|Hnz].
      * change 0 with (byte_val Byte.x00) in Ez. apply byte_val_inj in Ez. subst b0.
        reflexivity.
      * assert (Hv : 0 < big.SetBytes [b0]).
        { rewrite SetBytes_cons, SetBytes_nil. cbn [length]. lia. }
        rewrite makeBigInt_pos by assumption.
        rewrite Bytes_SetBytes by exact Hnz. cbn [asn1.highBit]. rewrite Eh. reflexivity.
    + unfold asn1.checkInteger in Hc.
      rewrite (low_not_ff b0 Eh), andb_false_l, orb_false_r in Hc.
      pose proof (SetBytes_range tl). pose proof (byte_val_range b1) as Hb1.
      destruct (Z.eqb_spec (byte_val b0) 0) as [Ez|Hnz].
      * cbn [andb] in Hc.
        destruct (Z.land (byte_val b1) 128 =? 0) eqn:Eh1; [discriminate Hc|].
        change 0 with (byte_val Byte.x00) in Ez. apply byte_val_inj in Ez. subst b0.
        pose proof (high_not_zero b1 Eh1) as Hb1nz. apply Z.eqb_neq in Hb1nz.
        rewrite SetBytes_zero_cons.
        pose proof (SetBytes_lower (b1 :: tl) ltac:(discriminate) Hb1nz) as Hl.
        assert (0 < 256 ^ (Z.of_nat (length (b1 :: tl)) - 1))
          by (apply Z.pow_pos_nonneg; [lia | cbn [length]; lia]).
        rewrite makeBigInt_pos by lia.
        rewrite Bytes_SetBytes by exact Hb1nz. cbn [asn1.highBit]. rewrite Eh1.
        reflexivity.
      * pose proof (SetBytes_lower (b0 :: b1 :: tl) ltac:(discriminate) Hnz) as Hl.
        assert (0 < 256 ^ (Z.of_nat (length (b0 :: b1 :: tl)) - 1))
          by (apply Z.pow_pos_nonneg; [lia | cbn [length]; lia]).
        rewrite makeBigInt_pos by lia.
        rewrite Bytes_SetBytes by exact Hnz. cbn [asn1.highBit]. rewrite Eh.
        reflexivity.
  - (* top bit set: a negative integer *)
    set (nb := fun b : byte => byte_of (Z.lxor (byte_val b) 0xff)).
    pose proof (SetBytes_range (map nb (b0 :: tl))) as Hr.
    change (byte_of (Z.lxor (byte_val b0) 255) :: map nb tl) with (map nb (b0 :: tl)).
    rewrite makeBigInt_neg by lia. cbv zeta. fold nb.
    replace (- - (big.SetBytes (map nb (b0 :: tl)) + 1) - 1)
      with (big.SetBytes (map nb (b0 :: tl))) by lia.
    destruct (Z.eqb_spec (byte_val b0) 0xff) as [Eff|Hnff].
    + change 255 with (byte_val Byte.xff) in Eff. apply byte_val_inj in Eff. subst b0.
      cbn [map]. change (nb Byte.xff) with Byte.x00. rewrite SetBytes_zero_cons.
      destruct tl as [|b1 tl].
      * reflexivity.
      * unfold asn1.checkInteger in Hc.
        change (byte_val Byte.xff =? 0) with false in Hc.
        change (byte_val Byte.xff =? 255) with true in Hc.
        cbn [andb orb] in Hc. rewrite high_is_0x80 in Hc.
        destruct (Z.land (byte_val b1) 128 =? 0) eqn:Eh1; [|discriminate Hc].
        assert (Hnz : noLeadingZero (map nb (b1 :: tl))).
        { cbn [map noLeadingZero]. apply Z.eqb_neq. apply high_not_zero.
          unfold nb. rewrite notByte_high, Eh1. reflexivity. }
        rewrite Bytes_SetBytes by exact Hnz.
        unfold nb. rewrite map_notByte_involutive.
        cbn [length Nat.eqb orb asn1.highBit]. rewrite Eh1. reflexivity.
    + assert (Hnz : noLeadingZero (map nb (b0 :: tl))).
      { cbn [map noLeadingZero]. apply Z.eqb_neq. unfold nb. rewrite notByte_zero.
        apply Z.eqb_neq. exact Hnff. }
      rewrite Bytes_SetBytes by exact Hnz.
      unfold nb. rewrite map_notByte_involutive.
      cbn [length Nat.eqb orb asn1.highBit]. rewrite Eh. reflexivity.
Qed.

Lemma parseBigIntField_inv (bytes rest : list byte) (v : Z) :
  asn1.parseBigIntField bytes = Ok (v, rest) ->
  bytes = asn1.marshalBigInt v ++ rest.
Proof.
  unfold asn1.parseBigIntField.
  destruct (asn1.parseHeader asn1.TagInteger false bytes) as [[inner rest0] | e | w] eqn:EH;
    cbn [bind]; try discriminate.
  destruct (asn1.parseBigInt inner) as [v' | e | w] eqn:EV; cbn [bind]; try discriminate.
  intros [= <- <-]. apply parseHeader_inv in EH. apply parseBigInt_inv in EV.
  unfold asn1.marshalBigInt. rewrite <- EV, <- app_assoc. exact EH.
Qed.

Lemma Unmarshal_inv (sign rest : list byte) (sig : sm2Signature) :
  asn1.Unmarshal sign = Ok (sig, rest) ->
  exists extra : list byte, sign = envelope (R sig) (S sig) extra ++ rest.
Proof.
  unfold asn1.Unmarshal.
  destruct (asn1.parseHeader asn1.TagSequence true sign) as [[inner rest0] | e | w] eqn:EH;
    cbn [bind]; try discriminate.
  destruct (asn1.parseBigIntField inner) as [[r inner1] | e | w] eqn:ER;
    cbn [bind]; try discriminate.
  destruct (asn1.parseBigIntField inner1) as [[s extra] | e | w] eqn:ES;
    cbn [bind]; try discriminate.
  intros [= <- <-]. cbn [R S]. exists extra.
  apply parseHeader_inv in EH. apply parseBigIntField_inv in ER, ES.
  unfold envelope. rewrite <- ES, <- ER, <- app_assoc. exact EH.
Qed.

(** ** The decoder never panics *)

Lemma parseLongLength_no_panic (nb : nat) (acc : Z) (bytes : list byte) (w : string) :
  asn1.parseLongLength nb acc bytes <> Panic w.
Proof.
  revert acc bytes. induction nb as [|nb IH]; intros acc bytes; cbn [asn1.parseLongLength].
  - discriminate.
  - destruct bytes as [|b bytes]; [discriminate|].
    destruct (acc >=? Z.shiftl 1 23); [discriminate|].
    destruct (_ =? 0); [discriminate | apply IH].
Qed.

Lemma parseHeader_no_panic (tg : Z) (cmp : bool) (bytes : list byte) (w : string) :
  asn1.parseHeader tg cmp bytes <> Panic w.
Proof.
  unfold asn1.parseHeader, asn1.parseTagAndLength.
  destruct bytes as [|b1 bytes]; [discriminate|].
  destruct (_ =? 31); [discriminate|].
  destruct bytes as [|b2 bytes]; [discriminate|].
  destruct (Z.land (byte_val b2) 128 =? 0).
  - cbn [bind]. destruct (_ || _); [discriminate|].
    destruct (_ <? _)%nat; discriminate.
  - destruct (_ =? 0)%nat; [discriminate|].
    pose proof (parseLongLength_no_panic (Z.to_nat (Z.land (byte_val b2) 127)) 0 bytes) as HP.
    destruct (asn1.parseLongLength _ 0 bytes) as [[len rest] | e | w']; cbn [bind].
    + destruct (len <? 128); [discriminate|]. cbn [bind].
      destruct (_ || _); [discriminate|].
      destruct (_ <? _)%nat; discriminate.
    + discriminate.
    + exfalso. apply (HP w'). reflexivity.
Qed.

Lemma parseBigIntField_no_panic (bytes : list byte) (w : string) :
  asn1.parseBigIntField bytes <> Panic w.
Proof.
  unfold asn1.parseBigIntField.
  pose proof (parseHeader_no_panic asn1.TagInteger false bytes) as HP.
  destruct (asn1.parseHeader asn1.TagInteger false bytes) as [[inner rest] | e | w'];
    cbn [bind]; [ | discriminate | exfalso; apply (HP w'); reflexivity].
  unfold asn1.parseBigInt, asn1.checkInteger.
  destruct inner as [|b0 [|b1 tl]]; cbn [bind]; try discriminate.
  - destruct (_ && _); discriminate.
  - destruct (_ || _); cbn [bind]; [discriminate|].
    destruct (_ && _); discriminate.
Qed.

Lemma Unmarshal_no_panic (sign : list byte) (w : string) :
  asn1.Unmarshal sign <> Panic w.
Proof.
  unfold asn1.Unmarshal.
  pose proof (parseHeader_no_panic asn1.TagSequence true sign) as HP.
  destruct (asn1.parseHeader asn1.TagSequence true sign) as [[inner rest] | e | w'];
    cbn [bind]; [ | discriminate | exfalso; apply (HP w'); reflexivity].
  pose proof (parseBigIntField_no_panic inner) as HR.
  destruct (asn1.parseBigIntField inner) as [[r inner1] | e | w'];
    cbn [bind]; [ | discriminate | exfalso; apply (HR w'); reflexivity].
  pose proof (parseBigIntField_no_panic inner1) as HS.
  destruct (asn1.parseBigIntField inner1) as [[s extra] | e | w'];
    cbn [bind]; [ discriminate | discriminate | exfalso; apply (HS w'); reflexivity].
Qed.

(** ** Sizes of encodings *)

Lemma Bytes_length_log2 (x : Z) :
  0 < x -> Z.of_nat (length (big.Bytes x)) <= Z.log2 x / 8 + 1.
Proof.
  intros Hx. pose proof (Z.log2_nonneg x) as Hl.
  pose proof (Z.div_pos (Z.log2 x) 8 Hl ltac:(lia)) as Hq.
  assert (H : (length (big.Bytes x) <= Z.to_nat (Z.log2 x / 8 + 1))%nat).
  { apply Bytes_length_bound. rewrite Z.abs_eq, Z2Nat.id by lia.
    change 256 with (2 ^ 8). rewrite <- Z.pow_mul_r by lia.
    pose proof (Z.log2_spec x Hx) as [_ Hup].
    pose proof (Z.div_mod (Z.log2 x) 8 ltac:(lia)).
    pose proof (Z.mod_pos_bound (Z.log2 x) 8 ltac:(lia)).
    assert (2 ^ Z.succ (Z.log2 x) <= 2 ^ (8 * (Z.log2 x / 8 + 1)))
      by (apply Z.pow_le_mono_r; lia).
    lia. }
  lia.
Qed.

Lemma makeBigInt_pos_length (v : Z) :
  0 < v -> (length (asn1.makeBigInt v) <= Datatypes.S (length (big.Bytes v)))%nat.
Proof.
  intros H. rewrite makeBigInt_pos by assumption.
  destruct (asn1.highBit (big.Bytes v)); cbn [length]; lia.
Qed.

Lemma appendTagAndLength_bound (t : asn1.tagAndLength) :
  Z.of_nat (asn1.length t) < 2 ^ 31 ->
  (length (asn1.appendTagAndLength t) <= 6)%nat.
Proof.
  intros H. unfold asn1.appendTagAndLength, asn1.appendLength. cbn [length].
  destruct (Nat.ltb_spec (asn1.length t) 128); cbn [length]; [lia|].
  pose proof (Bytes_length_int31 (Z.of_nat (asn1.length t)) ltac:(lia)). lia.
Qed.

Lemma marshalBigInt_pos_length (v : Z) :
  0 < v -> Z.log2 v < 2 ^ 32 ->
  Z.of_nat (length (asn1.marshalBigInt v)) <= 2 ^ 29 + 7.
Proof.
  intros Hv Hlog. unfold asn1.marshalBigInt. rewrite length_app.
  pose proof (makeBigInt_pos_length v Hv) as Hm.
  pose proof (Bytes_length_log2 v Hv) as Hb.
  assert (Hq : Z.log2 v / 8 < 2 ^ 29).
  { apply Z.div_lt_upper_bound; [lia|]. change (8 * 2 ^ 29) with (2 ^ 32). exact Hlog. }
  change (2 ^ 29) with 536870912 in *.
  match goal with |- context [asn1.appendTagAndLength ?t] =>
    pose proof (appendTagAndLength_bound t) as Ht end.
  cbn [asn1.length] in Ht. change (2 ^ 31) with 2147483648 in Ht.
  specialize (Ht ltac:(lia)). lia.
Qed.

Lemma PublicKey_Verify_envelope (pub : PublicKey) (msg : list byte)
    (r s : Z) (extra rest : list byte) :
  Z.of_nat (length (asn1.marshalBigInt r ++ asn1.marshalBigInt s ++ extra)) < 2 ^ 31 ->
  PublicKey_Verify pub msg (envelope r s extra ++ rest) = Verify pub msg r s.
Proof.
  intros H. unfold PublicKey_Verify. rewrite Unmarshal_envelope by assumption.
  reflexivity.
Qed.

(** C10: for every pair of positive integers (of bit length up to 2^32,
    far beyond any curve order), the envelope written by
    PrivateKey.Sign is decoded by PublicKey.Verify to exactly the same
    pair, with no bytes left over, so PublicKey.Verify on the envelope
    is Verify on the pair. *)
Theorem envelope_round_trip (r s : Z) :
  0 < r -> 0 < s -> Z.log2 r < 2 ^ 32 -> Z.log2 s < 2 ^ 32 ->
  exists sign : list byte,
    asn1.Marshal {| R := r; S := s |} = Ok sign /\
    asn1.Unmarshal sign = Ok ({| R := r; S := s |}, []) /\
    forall (pub : PublicKey) (msg : list byte),
      PublicKey_Verify pub msg sign = Verify pub msg r s.
Proof.
  intros Hr Hs Hlr Hls. exists (envelope r s []).
  assert (Hsize : Z.of_nat (length (asn1.marshalBigInt r ++ asn1.marshalBigInt s ++ []))
                  < 2 ^ 31).
  { rewrite app_nil_r, length_app, Nat2Z.inj_add.
    pose proof (marshalBigInt_pos_length r Hr Hlr).
    pose proof (marshalBigInt_pos_length s Hs Hls).
    change (2 ^ 29) with 536870912 in *. change (2 ^ 31) with 2147483648. lia. }
  split; [apply Marshal_envelope|]. split.
  - rewrite <- (app_nil_r (envelope r s [])). apply Unmarshal_envelope. exact Hsize.
  - intros pub msg. rewrite <- (app_nil_r (envelope r s [])).
    apply PublicKey_Verify_envelope. exact Hsize.
Qed.

Lemma envelope_round_trip_witness :
  0 < 255 /\ 0 < 2 ^ 300 /\ Z.log2 255 < 2 ^ 32 /\ Z.log2 (2 ^ 300) < 2 ^ 32 /\
  exists sign : list byte,
    asn1.Marshal {| R := 255; S := 2 ^ 300 |} = Ok sign /\
    asn1.Unmarshal sign = Ok ({| R := 255; S := 2 ^ 300 |}, []) /\
    forall (pub : PublicKey) (msg : list byte),
      PublicKey_Verify pub msg sign = Verify pub msg 255 (2 ^ 300).
Proof.
  assert (H1 : 0 < 255) by lia.
  assert (H2 : 0 < 2 ^ 300) by (vm_compute; reflexivity).
  assert (H3 : Z.log2 255 < 2 ^ 32) by (vm_compute; reflexivity).
  assert (H4 : Z.log2 (2 ^ 300) < 2 ^ 32) by (vm_compute; reflexivity).
  split; [exact H1|]. split; [exact H2|]. split; [exact H3|]. split; [exact H4|].
  exact (envelope_round_trip 255 (2 ^ 300) H1 H2 H3 H4).
Defined.

(** ** Malformed and over-long envelopes *)

(** C8, as the code has it: PublicKey.Verify returns false for every
    byte sequence that does not begin with a SEQUENCE whose contents
    begin with two positive INTEGERs. Bytes after the two integers,
    inside the SEQUENCE or after it, are not an error: they are ignored
    and the answer is that of Verify on the decoded pair. *)
Theorem PublicKey_Verify_envelope_shape (pub : PublicKey) (msg sign : list byte) :
  ((forall (r s : Z) (extra rest : list byte),
       0 < r -> 0 < s -> sign <> envelope r s extra ++ rest) ->
   PublicKey_Verify pub msg sign = Ok false) /\
  (forall (r s : Z) (extra rest : list byte),
      Z.of_nat (length (asn1.marshalBigInt r ++ asn1.marshalBigInt s ++ extra)) < 2 ^ 31 ->
      sign = envelope r s extra ++ rest ->
      PublicKey_Verify pub msg sign = Verify pub msg r s).
Proof.
  split.
  - intros Hshape. unfold PublicKey_Verify.
    pose proof (Unmarshal_no_panic sign) as HP.
    destruct (asn1.Unmarshal sign) as [[sig rest] | e | w] eqn:EU;
      [ | reflexivity | exfalso; apply (HP w); reflexivity].
    destruct (Unmarshal_inv sign rest sig EU) as [extra Hsign].
    destruct (Z.lt_ge_cases 0 (R sig)) as [Hr|Hr];
      [destruct (Z.lt_ge_cases 0 (S sig)) as [Hs|Hs]|].
    + exfalso. exact (Hshape (R sig) (S sig) extra rest Hr Hs Hsign).
    + apply Verify_out_of_range. right. right. left. lia.
    + apply Verify_out_of_range. left. lia.
  - intros r s extra rest Hsize ->. apply PublicKey_Verify_envelope. exact Hsize.
Qed.

Lemma PublicKey_Verify_envelope_shape_witness :
  (forall (r s : Z) (extra rest : list byte),
      0 < r -> 0 < s -> [Byte.x30; Byte.x00] <> envelope r s extra ++ rest) /\
  PublicKey_Verify (Public keyOne) digestOneOne [Byte.x30; Byte.x00] = Ok false /\
  Z.of_nat (length (asn1.marshalBigInt 1 ++ asn1.marshalBigInt 1 ++ [Byte.xaa])) < 2 ^ 31 /\
  PublicKey_Verify (Public keyOne) digestOneOne (envelope 1 1 [Byte.xaa] ++ [Byte.xbb])
  = Verify (Public keyOne) digestOneOne 1 1.
Proof.
  assert (H1 : forall (r s : Z) (extra rest : list byte),
             0 < r -> 0 < s -> [Byte.x30; Byte.x00] <> envelope r s extra ++ rest).
  { intros r s extra rest Hr Hs E.
    assert (HU : asn1.Unmarshal [Byte.x30; Byte.x00]
                 = Err (asn1.SyntaxError "sequence truncated")) by reflexivity.
    pose proof (f_equal (fun l => length l) E) as HL. cbn [length] in HL.
    unfold envelope in HL. rewrite !length_app in HL.
    pose proof (marshalBigInt_length r). pose proof (marshalBigInt_length s).
    match type of HL with context [asn1.appendTagAndLength ?t] =>
      pose proof (appendTagAndLength_length t) end.
    unfold asn1.appendTagAndLength in *. cbn [length] in *. lia. }
  assert (H2 : Z.of_nat (length (asn1.marshalBigInt 1 ++ asn1.marshalBigInt 1 ++ [Byte.xaa]))
               < 2 ^ 31) by (vm_compute; reflexivity).
  split; [exact H1|]. split.
  - exact (proj1 (PublicKey_Verify_envelope_shape (Public keyOne) digestOneOne
                    [Byte.x30; Byte.x00]) H1).
  - split; [exact H2|].
    exact (proj2 (PublicKey_Verify_envelope_shape (Public keyOne) digestOneOne
                    (envelope 1 1 [Byte.xaa] ++ [Byte.xbb]))
                 1 1 [Byte.xaa] [Byte.xbb] H2 eq_refl).
Defined.

(** C8, counterexample: the envelope of (1, 1) followed by one more
    byte decodes without error, the byte is returned as the rest and
    dropped, and PublicKey.Verify answers true. *)
Lemma PublicKey_Verify_trailing_counterexample :
  asn1.Unmarshal [Byte.x30; Byte.x06; Byte.x02; Byte.x01; Byte.x01;
                  Byte.x02; Byte.x01; Byte.x01; Byte.x00]
  = Ok ({| R := 1; S := 1 |}, [Byte.x00]) /\
  PublicKey_Verify (Public keyOne) digestOneOne
    [Byte.x30; Byte.x06; Byte.x02; Byte.x01; Byte.x01;
     Byte.x02; Byte.x01; Byte.x01; Byte.x00]
  = Ok true.
Proof.
  split; vm_compute; reflexivity.
Qed.

(** * Further properties of the package *)

(** ** Keys *)

Lemma randFieldElement_inv (c : elliptic.Curve) (rand rand' : io.Reader) (k : Z) :
  1 < elliptic.N (elliptic.Params c) ->
  randFieldElement c rand = (Ok k, rand') ->
  0 <= randLen c /\
  exists b : list byte,
    io.ReadFull rand (Z.to_nat (randLen c)) = (Ok b, rand') /\ k = scalarOf c b.
Proof.
  intros Hn. unfold randFieldElement, make_len. fold (randLen c).
  destruct (Z.ltb_spec (randLen c) 0) as [|Hlen]; [discriminate|].
  destruct (io.ReadFull rand _) as [[b | e | w] rand1] eqn:ER; cbn [bind]; try discriminate.
  unfold one. rewrite Mod_pos by lia. cbn [bind].
  intros [= <- <-]. split; [assumption|]. exists b. split; reflexivity.
Qed.

(** X1: every key GenerateKey returns has its private scalar D in
    [1, n-1], carries the curve it was generated on, has the public
    point ScalarBaseMult(D.Bytes()), and was derived from exactly one
    read of BitSize/8 + 8 bytes as (b mod (n-1)) + 1. *)
Theorem GenerateKey_key_invariants (c : elliptic.Curve) (rand rand' : io.Reader)
    (priv : PrivateKey) :
  let n := elliptic.N (elliptic.Params c) in
  1 < n ->
  GenerateKey c rand = (Ok priv, rand') ->
  Curve (Public priv) = c /\
  1 <= D priv <= n - 1 /\
  (X (Public priv), Y (Public priv)) = elliptic.ScalarBaseMult c (big.Bytes (D priv)) /\
  exists b : list byte,
    io.ReadFull rand (Z.to_nat (Z.quot (elliptic.BitSize (elliptic.Params c)) 8 + 8))
    = (Ok b, rand') /\
    D priv = big.SetBytes b mod (n - 1) + 1.
Proof.
  intros n Hn Hgen.
  destruct (GenerateKey_Ok c rand rand' priv Hn Hgen) as (Hc & Hd & HP).
  split; [exact Hc|]. split; [exact Hd|]. split; [exact HP|].
  unfold GenerateKey in Hgen.
  destruct (randFieldElement c rand) as [[k | e | w] rand1] eqn:E;
    cbn [bind] in Hgen; try discriminate.
  destruct (elliptic.ScalarBaseMult c (big.Bytes k)) as [x y].
  apply (f_equal (fun p => (match fst p with Ok key => D key | _ => 0 end, snd p))) in Hgen.
  cbn [fst snd D] in Hgen. injection Hgen as Hk Hr. subst k rand1.
  destruct (randFieldElement_inv c rand rand' (D priv) Hn E) as (_ & b & Hread & Hb).
  exists b. split; [exact Hread | exact Hb].
Qed.

Lemma GenerateKey_key_invariants_witness :
  1 < elliptic.N (elliptic.Params sm2P256) /\
  GenerateKey sm2P256 zeroReader = (Ok keyOne, zeroReader) /\
  1 <= D keyOne <= elliptic.N (elliptic.Params sm2P256) - 1.
Proof.
  assert (H1 : 1 < elliptic.N (elliptic.Params sm2P256)) by (vm_compute; reflexivity).
  split; [exact H1|]. split; [exact GenerateKey_keyOne|].
  exact (proj1 (proj2 (GenerateKey_key_invariants sm2P256 zeroReader zeroReader keyOne
                         H1 GenerateKey_keyOne))).
Defined.



(** ** The equation behind S *)

Lemma Sign_read (rand rand' : io.Reader) (priv : PrivateKey) (hash b : list byte) :
  let c := Curve (Public priv) in
  let n := elliptic.N (elliptic.Params c) in
  let r := (big.SetBytes (firstn 32 hash)
            + fst (elliptic.ScalarBaseMult c (big.Bytes (scalarOf c b)))) mod n in
  let s1 := (scalarOf c b - (r * D priv) mod n) mod n in
  let s2 := (1 + D priv) mod n in
  (32 <= length hash)%nat ->
  1 < n ->
  0 <= randLen c ->
  io.ReadFull rand (Z.to_nat (randLen c)) = (Ok b, rand') ->
  Sign rand priv hash = (Ok (r, (s1 * big.ModInverse s2 s2 n) mod n), rand').
Proof.
  intros c n r s1 s2 Hh Hn Hlen Hread.
  rewrite Sign_unfold by assumption. fold c.
  rewrite (generateRandK_read c rand rand' b Hn Hlen Hread).
  cbn [fst snd bind]. rewrite signWith_Some by (fold c; fold n; lia).
  reflexivity.
Qed.

(** X3: when n is prime and 1 + D is not a multiple of n, the pair
    Sign returns satisfies the signing equations
    R = (E + x1) mod n and S * (1 + D) = k - R * D (mod n), where k is
    the nonce derived from the bytes read and x1 the x-coordinate of
    k*G. *)
Theorem Sign_signing_equation (rand rand' : io.Reader) (priv : PrivateKey)
    (hash b : list byte) (r s : Z) :
  let c := Curve (Public priv) in
  let n := elliptic.N (elliptic.Params c) in
  let k := big.SetBytes b mod (n - 1) + 1 in
  Z.prime n ->
  (1 + D priv) mod n <> 0 ->
  io.ReadFull rand (Z.to_nat (Z.quot (elliptic.BitSize (elliptic.Params c)) 8 + 8))
  = (Ok b, rand') ->
  0 <= Z.quot (elliptic.BitSize (elliptic.Params c)) 8 + 8 ->
  Sign rand priv hash = (Ok (r, s), rand') ->
  r = (big.SetBytes (firstn 32 hash) + fst (elliptic.ScalarBaseMult c (big.Bytes k))) mod n /\
  (s * (1 + D priv)) mod n = (k - r * D priv) mod n.
Proof.
  intros c n k Hp Hinv Hread Hlen Hsign. pose proof Hp as [Hn _].
  destruct (Sign_Ok rand rand' priv hash r s Hsign) as (Hh & _).
  rewrite (Sign_read rand rand' priv hash b Hh Hn Hlen Hread) in Hsign.
  fold c in Hsign. fold n in Hsign. change (scalarOf c b) with k in Hsign.
  apply (f_equal fst) in Hsign. cbn [fst] in Hsign.
  apply Ok_pair_inj in Hsign. destruct Hsign as [Er Es].
  split; [symmetry; exact Er|].
  pose proof (ModInverse_prime n (D priv) Hp) as HM. cbv zeta in HM.
  destruct HM as [[Hz _] | Hi]; [contradiction|].
  set (i := big.ModInverse ((1 + D priv) mod n) ((1 + D priv) mod n) n) in *.
  rewrite Er in Es.
  change (eqm n (s * (1 + D priv)) (k - r * D priv)).
  assert (Hs : eqm n s ((k - (r * D priv) mod n) mod n * i))
    by (rewrite <- Es; apply Zmod_eqm).
  assert (Hs1 : eqm n ((k - (r * D priv) mod n) mod n) (k - r * D priv)).
  { rewrite Zmod_eqm. rewrite Zmod_eqm. reflexivity. }
  assert (Hs2 : eqm n ((1 + D priv) mod n) (1 + D priv)) by apply Zmod_eqm.
  assert (Hi' : eqm n (i * ((1 + D priv) mod n)) 1) by exact Hi.
  rewrite Hs, Hs1. rewrite <- Hs2.
  replace ((k - r * D priv) * i * ((1 + D priv) mod n))
    with ((k - r * D priv) * (i * ((1 + D priv) mod n))) by ring.
  rewrite Hi'. replace ((k - r * D priv) * 1) with (k - r * D priv) by ring.
  reflexivity.
Qed.

Lemma Sign_signing_equation_witness :
  Z.prime (elliptic.N (elliptic.Params smallCurve)) /\
  (1 + D smallKey) mod elliptic.N (elliptic.Params smallCurve) <> 0 /\
  Sign smallNonceReader smallKey smallDigest = (Ok (18, 11), io.Stream []) /\
  (11 * (1 + 7)) mod 19 = (5 - 18 * 7) mod 19.
Proof.
  assert (H1 : Z.prime (elliptic.N (elliptic.Params (Curve (Public smallKey)))))
    by exact prime_19.
  assert (H2 : (1 + D smallKey) mod elliptic.N (elliptic.Params (Curve (Public smallKey)))
               <> 0) by (vm_compute; discriminate).
  assert (H3 : io.ReadFull smallNonceReader
                 (Z.to_nat (Z.quot (elliptic.BitSize
                    (elliptic.Params (Curve (Public smallKey)))) 8 + 8))
               = (Ok (repeat Byte.x00 7 ++ [Byte.x04]), io.Stream []))
    by (vm_compute; reflexivity).
  assert (H4 : 0 <= Z.quot (elliptic.BitSize
                 (elliptic.Params (Curve (Public smallKey)))) 8 + 8)
    by (vm_compute; discriminate).
  assert (H5 : Sign smallNonceReader smallKey smallDigest = (Ok (18, 11), io.Stream []))
    by (vm_compute; reflexivity).
  split; [exact H1|]. split; [exact H2|]. split; [exact H5|].
  exact (proj2 (Sign_signing_equation smallNonceReader (io.Stream []) smallKey smallDigest
                  (repeat Byte.x00 7 ++ [Byte.x04]) 18 11 H1 H2 H3 H4 H5)).
Defined.

(** ** The key n - 1 *)

(** X4: for a private key with 1 + D a multiple of n (D = n - 1, which
    GenerateKey can return), the modular inverse does not exist, Sign
    still returns a pair, its S is 0, and Verify rejects that pair:
    no signature made with this key verifies. *)
Theorem Sign_with_last_key (rand rand' : io.Reader) (priv : PrivateKey)
    (hash b : list byte) :
  let c := Curve (Public priv) in
  let n := elliptic.N (elliptic.Params c) in
  1 < n ->
  (1 + D priv) mod n = 0 ->
  (32 <= length hash)%nat ->
  0 <= Z.quot (elliptic.BitSize (elliptic.Params c)) 8 + 8 ->
  io.ReadFull rand (Z.to_nat (Z.quot (elliptic.BitSize (elliptic.Params c)) 8 + 8))
  = (Ok b, rand') ->
  exists r : Z,
    Sign rand priv hash = (Ok (r, 0), rand') /\
    Verify (Public priv) hash r 0 = Ok false.
Proof.
  intros c n Hn Hz Hh Hlen Hread. eexists. split.
  - rewrite (Sign_read rand rand' priv hash b Hh Hn Hlen Hread).
    fold c. fold n. rewrite Hz.
    assert (HM : big.ModInverse 0 0 n = 0).
    { unfold big.ModInverse. change (0 <? 0) with false. cbv iota.
      assert (Hg : Z.gcd 0 (Z.abs n) = n) by (rewrite Z.gcd_0_l; lia).
      rewrite Hg. destruct (Z.eqb_spec n 1); [lia | reflexivity]. }
    rewrite HM, Z.mul_0_r, Z.mod_0_l by lia. reflexivity.
  - apply Verify_out_of_range. right. right. left. lia.
Qed.

Lemma Sign_with_last_key_witness :
  GenerateKey smallCurve (io.Stream (repeat Byte.x00 7 ++ [Byte.x11]))
  = (Ok smallKeyLast, io.Stream []) /\
  (1 + D smallKeyLast) mod elliptic.N (elliptic.Params smallCurve) = 0 /\
  exists r : Z,
    Sign smallNonceReader smallKeyLast smallDigest = (Ok (r, 0), io.Stream []) /\
    Verify (Public smallKeyLast) smallDigest r 0 = Ok false.
Proof.
  assert (H1 : 1 < elliptic.N (elliptic.Params (Curve (Public smallKeyLast))))
    by (vm_compute; reflexivity).
  assert (H2 : (1 + D smallKeyLast)
               mod elliptic.N (elliptic.Params (Curve (Public smallKeyLast))) = 0)
    by (vm_compute; reflexivity).
  assert (H3 : (32 <= length smallDigest)%nat) by (vm_compute; lia).
  assert (H4 : 0 <= Z.quot (elliptic.BitSize
                 (elliptic.Params (Curve (Public smallKeyLast)))) 8 + 8)
    by (vm_compute; discriminate).
  assert (H5 : io.ReadFull smallNonceReader
                 (Z.to_nat (Z.quot (elliptic.BitSize
                    (elliptic.Params (Curve (Public smallKeyLast)))) 8 + 8))
               = (Ok (repeat Byte.x00 7 ++ [Byte.x04]), io.Stream []))
    by (vm_compute; reflexivity).
  split.
  - rewrite (GenerateKey_read smallCurve _ (io.Stream [])
               (repeat Byte.x00 7 ++ [Byte.x11])).
    + replace (scalarOf smallCurve (repeat Byte.x00 7 ++ [Byte.x11])) with 18
        by (vm_compute; reflexivity).
      replace (mulBase smallCurve 18) with (5, 16) by (vm_compute; reflexivity).
      reflexivity.
    + vm_compute. reflexivity.
    + vm_compute. discriminate.
    + reflexivity.
  - split; [exact H2|].
    exact (Sign_with_last_key smallNonceReader (io.Stream []) smallKeyLast smallDigest
             (repeat Byte.x00 7 ++ [Byte.x04]) H1 H2 H3 H4 H5).
Defined.

(** ** What Verify sees of the digest *)

(** X5: Verify uses the digest only through its integer modulo n: two
    digests whose big-endian integers are congruent modulo n (for
    instance E and E + n, or a digest and the same digest behind zero
    bytes) get the same answer for every key and pair. *)
Theorem Verify_digest_modulo_order (pub : PublicKey) (h1 h2 : list byte) (r s : Z) :
  let n := elliptic.N (elliptic.Params (Curve pub)) in
  big.SetBytes h1 mod n = big.SetBytes h2 mod n ->
  Verify pub h1 r s = Verify pub h2 r s.
Proof.
  intros n Hcong.
  destruct (Z.lt_ge_cases r 1) as [Hr|Hr];
    [rewrite !Verify_out_of_range by (left; exact Hr); reflexivity|].
  destruct (Z.lt_ge_cases s 1) as [Hs|Hs];
    [rewrite !Verify_out_of_range by (right; right; left; exact Hs); reflexivity|].
  destruct (Z.lt_ge_cases r n) as [Hrn|Hrn];
    [|rewrite !Verify_out_of_range by (right; left; exact Hrn); reflexivity].
  destruct (Z.lt_ge_cases s n) as [Hsn|Hsn];
    [|rewrite !Verify_out_of_range by (right; right; right; exact Hsn); reflexivity].
  rewrite !Verify_in_range by (fold n; lia). fold n.
  destruct (elliptic.ScalarMult _ _ _ _) as [x11 y11].
  destruct (elliptic.ScalarBaseMult _ _) as [x12 y12].
  destruct (elliptic.Add _ _ _ _ _) as [x1 y1].
  rewrite (Z.add_mod (big.SetBytes h1)), (Z.add_mod (big.SetBytes h2)) by lia.
  rewrite Hcong. reflexivity.
Qed.

Lemma Verify_digest_modulo_order_witness :
  digestOne <> big.Bytes (elliptic.N sm2P256Params + 1) /\
  length (big.Bytes (elliptic.N sm2P256Params + 1)) = 32%nat /\
  big.SetBytes digestOne mod elliptic.N sm2P256Params
  = big.SetBytes (big.Bytes (elliptic.N sm2P256Params + 1)) mod elliptic.N sm2P256Params /\
  Verify pubHalf digestOne 1 1
  = Verify pubHalf (big.Bytes (elliptic.N sm2P256Params + 1)) 1 1.
Proof.
  assert (H : big.SetBytes digestOne mod elliptic.N (elliptic.Params (Curve pubHalf))
              = big.SetBytes (big.Bytes (elliptic.N sm2P256Params + 1))
                mod elliptic.N (elliptic.Params (Curve pubHalf)))
    by (vm_compute; reflexivity).
  split; [vm_compute; discriminate|]. split; [vm_compute; reflexivity|].
  split; [exact H|].
  exact (Verify_digest_modulo_order pubHalf digestOne
           (big.Bytes (elliptic.N sm2P256Params + 1)) 1 1 H).
Defined.

(** ** Verification always answers *)



(** ** Sign and Verify against each other *)

Lemma Verify_of_Sign_output (c : elliptic.Curve) (rand rand' : io.Reader)
    (priv : PrivateKey) (hash : list byte) (r s : Z) :
  let n := elliptic.N (elliptic.Params c) in
  CurveLaws c ->
  Curve (Public priv) = c ->
  1 <= D priv <= n - 1 ->
  (X (Public priv), Y (Public priv)) = mulBase c (D priv) ->
  length hash = 32%nat ->
  Sign rand priv hash = (Ok (r, s), rand') ->
  r <> 0 -> s <> 0 ->
  1 <= r < n /\ 1 <= s < n /\ Verify (Public priv) hash r s = Ok true.
Proof.
  intros n L Hc Hd HP Hlen Hsign Hr Hs.
  pose proof (order_prime c L) as Hp. pose proof Hp as [Hn _]. fold n in Hn.
  destruct (Sign_Ok rand rand' priv hash r s Hsign) as (_ & k & Hk & Hw).
  rewrite Hc in Hk. apply (generateRandK_Some c rand rand' k Hn) in Hk. fold n in Hk.
  rewrite signWith_Some in Hw by (rewrite Hc; fold n; lia).
  rewrite Hc in Hw. rewrite firstn_all2 in Hw by lia. fold n in Hw.
  apply Ok_pair_inj in Hw. destruct Hw as [Er Es].
  assert (Hr' : 1 <= r < n).
  { pose proof (Z.mod_pos_bound (big.SetBytes hash
        + fst (elliptic.ScalarBaseMult c (big.Bytes k))) n ltac:(lia)). lia. }
  assert (Hs' : 1 <= s < n).
  { rewrite <- Es in Hs |- *.
    match goal with |- 1 <= ?a mod n < n =>
      pose proof (Z.mod_pos_bound a n ltac:(lia)) end. lia. }
  assert (Heq : (D priv * (r + s) + s) mod n = k mod n).
  { pose proof (ModInverse_prime n (D priv) Hp) as HM. cbv zeta in HM.
    destruct HM as [[_ Hz] | Hinv].
    - exfalso. apply Hs. rewrite <- Es, Hz, Z.mul_0_r. apply Z.mod_0_l. lia.
    - rewrite <- Es, <- Er. rewrite Er. apply sign_equation. exact Hinv. }
  split; [exact Hr'|]. split; [exact Hs'|].
  rewrite (Verify_of_sign_equation c (Public priv) hash (D priv) k r s L Hc HP)
    by (fold n; lia || assumption).
  fold n. unfold mulBase. rewrite Er. rewrite Z.eqb_refl. reflexivity.
Qed.

(** X7: the two methods compose. For a key from GenerateKey (on a
    curve obeying the group laws, with an order of bit length up to
    2^32) and a 32-byte message digest, if PrivateKey.Sign returns an
    envelope then it is the DER envelope of the pair Sign computed,
    and unless a component of that pair is zero, PublicKey.Verify of
    the public key accepts the envelope. *)
Theorem PrivateKey_Sign_then_PublicKey_Verify (c : elliptic.Curve)
    (rand0 rand1 rand rand' : io.Reader) (priv : PrivateKey) (msg sign : list byte) :
  CurveLaws c ->
  Z.log2 (elliptic.N (elliptic.Params c)) < 2 ^ 32 ->
  GenerateKey c rand0 = (Ok priv, rand1) ->
  length msg = 32%nat ->
  PrivateKey_Sign priv rand msg = (Ok sign, rand') ->
  exists r s : Z,
    Sign rand priv msg = (Ok (r, s), rand') /\
    asn1.Marshal {| R := r; S := s |} = Ok sign /\
    (r <> 0 -> s <> 0 ->
     PublicKey_Verify (PrivateKey_Public priv) msg sign = Ok true).
Proof.
  intros L Hlog Hgen Hlen Hps.
  pose proof (order_prime c L) as [Hn _].
  destruct (GenerateKey_Ok c rand0 rand1 priv Hn Hgen) as (Hc & Hd & HP).
  unfold PrivateKey_Sign in Hps.
  destruct (Sign rand priv msg) as [[[r s] | e | w] rand2] eqn:ES; try discriminate.
  rewrite Marshal_envelope in Hps. injection Hps as Hsign Hrand. subst rand2.
  exists r, s. split; [reflexivity|]. split; [rewrite Marshal_envelope, Hsign; reflexivity|].
  intros Hr Hs.
  destruct (Verify_of_Sign_output c rand rand' priv msg r s L Hc Hd HP Hlen ES Hr Hs)
    as (Hr' & Hs' & HV).
  unfold PrivateKey_Public. rewrite <- Hsign, <- (app_nil_r (envelope r s [])).
  rewrite PublicKey_Verify_envelope; [exact HV|].
  assert (Hbits : forall v, 1 <= v < elliptic.N (elliptic.Params c) -> Z.log2 v < 2 ^ 32).
  { intros v Hv. pose proof (Z.log2_le_mono v (elliptic.N (elliptic.Params c)) ltac:(lia)).
    lia. }
  rewrite app_nil_r, length_app, Nat2Z.inj_add.
  pose proof (marshalBigInt_pos_length r ltac:(lia) (Hbits r Hr')).
  pose proof (marshalBigInt_pos_length s ltac:(lia) (Hbits s Hs')).
  change (2 ^ 29) with 536870912 in *. change (2 ^ 31) with 2147483648. lia.
Qed.

Lemma PrivateKey_Sign_then_PublicKey_Verify_witness :
  CurveLaws smallCurve /\
  GenerateKey smallCurve smallKeyReader = (Ok smallKey, io.Stream []) /\
  PrivateKey_Sign smallKey smallNonceReader smallDigest
  = (Ok [Byte.x30; Byte.x06; Byte.x02; Byte.x01; Byte.x12; Byte.x02; Byte.x01; Byte.x0b],
     io.Stream []) /\
  exists r s : Z,
    Sign smallNonceReader smallKey smallDigest = (Ok (r, s), io.Stream []) /\
    asn1.Marshal {| R := r; S := s |}
    = Ok [Byte.x30; Byte.x06; Byte.x02; Byte.x01; Byte.x12; Byte.x02; Byte.x01; Byte.x0b] /\
    (r <> 0 -> s <> 0 ->
     PublicKey_Verify (PrivateKey_Public smallKey) smallDigest
       [Byte.x30; Byte.x06; Byte.x02; Byte.x01; Byte.x12; Byte.x02; Byte.x01; Byte.x0b]
     = Ok true).
Proof.
  assert (H1 : Z.log2 (elliptic.N (elliptic.Params smallCurve)) < 2 ^ 32)
    by (vm_compute; reflexivity).
  assert (H2 : PrivateKey_Sign smallKey smallNonceReader smallDigest
               = (Ok [Byte.x30; Byte.x06; Byte.x02; Byte.x01; Byte.x12;
                      Byte.x02; Byte.x01; Byte.x0b], io.Stream []))
    by (vm_compute; reflexivity).
  split; [exact smallCurve_laws|]. split; [exact GenerateKey_smallKey|].
  split; [exact H2|].
  exact (PrivateKey_Sign_then_PublicKey_Verify smallCurve smallKeyReader (io.Stream [])
           smallNonceReader (io.Stream []) smallKey smallDigest _
           smallCurve_laws H1 GenerateKey_smallKey eq_refl H2).
Defined.



(** ** Size of the envelope *)

Lemma makeBigInt_length_256 (v : Z) :
  0 <= v < 2 ^ 256 -> (1 <= length (asn1.makeBigInt v) <= 33)%nat.
Proof.
  intros Hv. destruct (Z.eq_dec v 0) as [->|Hnz]; [cbn; lia|].
  rewrite makeBigInt_pos by lia.
  pose proof (Bytes_nonempty v Hnz) as Hne.
  assert (Hle : (length (big.Bytes v) <= 32)%nat).
  { apply Bytes_length_bound. rewrite Z.abs_eq by lia.
    change (256 ^ Z.of_nat 32) with (2 ^ 256). lia. }
  destruct (big.Bytes v) as [|b l]; [congruence|].
  destruct (asn1.highBit (b :: l)); cbn [length] in *; lia.
Qed.

Lemma appendTagAndLength_short (t : asn1.tagAndLength) :
  (asn1.length t < 128)%nat -> length (asn1.appendTagAndLength t) = 2%nat.
Proof.
  intros H. unfold asn1.appendTagAndLength, asn1.appendLength.
  destruct (Nat.ltb_spec (asn1.length t) 128); [reflexivity | lia].
Qed.

Lemma marshalBigInt_length_256 (v : Z) :
  0 <= v < 2 ^ 256 -> (3 <= length (asn1.marshalBigInt v) <= 35)%nat.
Proof.
  intros Hv. pose proof (makeBigInt_length_256 v Hv) as H.
  unfold asn1.marshalBigInt. rewrite length_app, appendTagAndLength_short;
    cbn [asn1.length]; lia.
Qed.

Lemma envelope_length_256 (r s : Z) :
  0 <= r < 2 ^ 256 -> 0 <= s < 2 ^ 256 ->
  (8 <= length (envelope r s []) <= 72)%nat /\
  exists tl : list byte, envelope r s [] = Byte.x30 :: tl.
Proof.
  intros Hr Hs. pose proof (marshalBigInt_length_256 r Hr).
  pose proof (marshalBigInt_length_256 s Hs).
  unfold envelope. split.
  - rewrite length_app, appendTagAndLength_short; cbn [asn1.length];
      rewrite ?app_nil_r, ?length_app; lia.
  - unfold asn1.appendTagAndLength. cbn [asn1.class asn1.tag asn1.isCompound].
    eexists. rewrite <- app_comm_cons. reflexivity.
Qed.

Lemma Sign_output_range (rand rand' : io.Reader) (priv : PrivateKey)
    (hash : list byte) (r s : Z) :
  let n := elliptic.N (elliptic.Params (Curve (Public priv))) in
  1 < n ->
  Sign rand priv hash = (Ok (r, s), rand') ->
  0 <= r < n /\ 0 <= s < n.
Proof.
  intros n Hn Hsign.
  destruct (Sign_Ok rand rand' priv hash r s Hsign) as (_ & k & _ & Hw).
  rewrite signWith_Some in Hw by (fold n; lia). fold n in Hw.
  apply Ok_pair_inj in Hw. destruct Hw as [<- <-].
  split; apply Z.mod_pos_bound; lia.
Qed.

(** X9: on a curve whose order n satisfies 1 < n <= 2^256, every
    envelope PrivateKey.Sign returns is between 8 and 72 bytes long
    and starts with the SEQUENCE tag 0x30. *)
Theorem PrivateKey_Sign_envelope_size (priv : PrivateKey) (rand rand' : io.Reader)
    (msg sign : list byte) :
  let n := elliptic.N (elliptic.Params (Curve (Public priv))) in
  1 < n <= 2 ^ 256 ->
  PrivateKey_Sign priv rand msg = (Ok sign, rand') ->
  (8 <= length sign <= 72)%nat /\ exists tl : list byte, sign = Byte.x30 :: tl.
Proof.
  intros n Hn Hps. unfold PrivateKey_Sign in Hps.
  destruct (Sign rand priv msg) as [[[r s] | e | w] rand2] eqn:ES; try discriminate.
  rewrite Marshal_envelope in Hps. injection Hps as <- <-.
  destruct (Sign_output_range rand rand2 priv msg r s ltac:(fold n; lia) ES) as [Hr Hs].
  fold n in Hr, Hs. apply envelope_length_256; lia.
Qed.

Lemma PrivateKey_Sign_envelope_size_witness :
  1 < elliptic.N (elliptic.Params (Curve (Public keyOne))) <= 2 ^ 256 /\
  PrivateKey_Sign keyOne nonceThree digestOneOne
  = (Ok [Byte.x30; Byte.x06; Byte.x02; Byte.x01; Byte.x01; Byte.x02; Byte.x01; Byte.x01],
     io.Stream []) /\
  (8 <= length [Byte.x30; Byte.x06; Byte.x02; Byte.x01; Byte.x01;
                Byte.x02; Byte.x01; Byte.x01] <= 72)%nat.
Proof.
  assert (H1 : 1 < elliptic.N (elliptic.Params (Curve (Public keyOne))) <= 2 ^ 256)
    by (split; vm_compute; [reflexivity | discriminate]).
  assert (H2 : PrivateKey_Sign keyOne nonceThree digestOneOne
               = (Ok [Byte.x30; Byte.x06; Byte.x02; Byte.x01; Byte.x01;
                      Byte.x02; Byte.x01; Byte.x01], io.Stream []))
    by (vm_compute; reflexivity).
  split; [exact H1|]. split; [exact H2|].
  exact (proj1 (PrivateKey_Sign_envelope_size keyOne nonceThree (io.Stream [])
                  digestOneOne _ H1 H2)).
Defined.

(** ** Reach of the scalar generators *)

Lemma SetBytes_zero_pad (m : nat) (l : list byte) :
  big.SetBytes (repeat Byte.x00 m ++ l) = big.SetBytes l.
Proof.
  induction m as [|m IH]; [reflexivity|].
  cbn [repeat app]. rewrite SetBytes_zero_cons. exact IH.
Qed.

Lemma ReadFull_block (b tail : list byte) :
  io.ReadFull (io.Stream (b ++ tail)) (length b) = (Ok b, io.Stream tail).
Proof.
  cbn [io.ReadFull]. rewrite length_app.
  destruct (Nat.leb_spec (length b) (length b + length tail)); [|lia].
  rewrite firstn_app, Nat.sub_diag, firstn_all, skipn_app, Nat.sub_diag, skipn_all.
  cbn [firstn skipn app]. rewrite app_nil_r. reflexivity.
Qed.

(** X10: the scalar generators reach the whole range. On a curve with
    n > 1 whose read length L = BitSize/8 + 8 satisfies n - 1 <= 256^L,
    every k in [1, n-1] is returned, by randFieldElement and by
    generateRandK, for some L bytes of entropy. *)
Theorem every_scalar_is_generated (c : elliptic.Curve) (k : Z) :
  let n := elliptic.N (elliptic.Params c) in
  let L := Z.quot (elliptic.BitSize (elliptic.Params c)) 8 + 8 in
  1 < n -> 0 <= L -> n - 1 <= 256 ^ L ->
  1 <= k <= n - 1 ->
  exists b : list byte,
    Z.of_nat (length b) = L /\
    randFieldElement c (io.Stream b) = (Ok k, io.Stream []) /\
    generateRandK (io.Stream b) c = (Ok (Some k), io.Stream []).
Proof.
  intros n L Hn HL Hfit Hk.
  assert (Hlen : (length (big.Bytes (k - 1)) <= Z.to_nat L)%nat).
  { apply Bytes_length_bound. rewrite Z.abs_eq, Z2Nat.id by lia. lia. }
  set (b := repeat Byte.x00 (Z.to_nat L - length (big.Bytes (k - 1))) ++ big.Bytes (k - 1)).
  assert (Hb : length b = Z.to_nat L).
  { unfold b. rewrite length_app, repeat_length. lia. }
  assert (Hread : io.ReadFull (io.Stream b) (Z.to_nat (randLen c)) = (Ok b, io.Stream [])).
  { change (randLen c) with L. rewrite <- Hb, <- (app_nil_r b) at 1. apply ReadFull_block. }
  assert (Hv : scalarOf c b = k).
  { unfold scalarOf, b. fold n. rewrite SetBytes_zero_pad, SetBytes_Bytes_nonneg by lia.
    rewrite Z.mod_small by lia. lia. }
  exists b. split; [lia|]. split.
  - rewrite (randFieldElement_read c _ _ b Hn HL Hread), Hv. reflexivity.
  - rewrite (generateRandK_read c _ _ b Hn HL Hread), Hv. reflexivity.
Qed.

Lemma every_scalar_is_generated_witness :
  1 < elliptic.N (elliptic.Params sm2P256) /\
  elliptic.N (elliptic.Params sm2P256) - 1
  <= 256 ^ (Z.quot (elliptic.BitSize (elliptic.Params sm2P256)) 8 + 8) /\
  exists b : list byte,
    Z.of_nat (length b) = Z.quot (elliptic.BitSize (elliptic.Params sm2P256)) 8 + 8 /\
    randFieldElement sm2P256 (io.Stream b)
    = (Ok (elliptic.N (elliptic.Params sm2P256) - 1), io.Stream []) /\
    generateRandK (io.Stream b) sm2P256
    = (Ok (Some (elliptic.N (elliptic.Params sm2P256) - 1)), io.Stream []).
Proof.
  assert (H1 : 1 < elliptic.N (elliptic.Params sm2P256)) by (vm_compute; reflexivity).
  assert (H2 : 0 <= Z.quot (elliptic.BitSize (elliptic.Params sm2P256)) 8 + 8)
    by (vm_compute; discriminate).
  assert (H3 : elliptic.N (elliptic.Params sm2P256) - 1
               <= 256 ^ (Z.quot (elliptic.BitSize (elliptic.Params sm2P256)) 8 + 8))
    by (vm_compute; discriminate).
  assert (H4 : 1 <= elliptic.N (elliptic.Params sm2P256) - 1
               <= elliptic.N (elliptic.Params sm2P256) - 1) by lia.
  split; [exact H1|]. split; [exact H3|].
  exact (every_scalar_is_generated sm2P256 (elliptic.N (elliptic.Params sm2P256) - 1)
           H1 H2 H3 H4).
Defined.

(** ** The zero reader *)

(** X11: the zero reader fixes every scalar to 1. [zr.Read] fills any
    buffer with zeros, so on every curve with n > 1 GenerateKey with
    zeroReader returns the key D = 1 with public point 1*G, and every
    Sign with zeroReader uses the nonce 1: its R is
    (E + x(1*G)) mod n whatever the key, and the reader is unchanged,
    so repeated signatures share the nonce. *)
Theorem zeroReader_fixes_the_scalar (c : elliptic.Curve) :
  let n := elliptic.N (elliptic.Params c) in
  let G1 := elliptic.ScalarBaseMult c [Byte.x01] in
  1 < n -> 0 <= elliptic.BitSize (elliptic.Params c) ->
  (forall dst : list byte,
      zr_Read dst = (repeat Byte.x00 (length dst), length dst, None)) /\
  GenerateKey c zeroReader
  = (Ok {| Public := {| Curve := c; X := fst G1; Y := snd G1 |}; D := 1 |}, zeroReader) /\
  (forall (priv : PrivateKey) (hash : list byte),
      Curve (Public priv) = c -> (32 <= length hash)%nat ->
      exists s : Z,
        Sign zeroReader priv hash
        = (Ok ((big.SetBytes (firstn 32 hash) + fst G1) mod n, s), zeroReader)).
Proof.
  intros n G1 Hn HB.
  assert (Hlen : 0 <= randLen c).
  { unfold randLen. rewrite Z.quot_div_nonneg by lia.
    pose proof (Z.div_pos (elliptic.BitSize (elliptic.Params c)) 8 HB ltac:(lia)). lia. }
  assert (Hread : io.ReadFull zeroReader (Z.to_nat (randLen c))
                  = (Ok (repeat Byte.x00 (Z.to_nat (randLen c))), zeroReader))
    by reflexivity.
  assert (Hk : scalarOf c (repeat Byte.x00 (Z.to_nat (randLen c))) = 1).
  { unfold scalarOf. rewrite SetBytes_repeat_zero. rewrite Z.mod_0_l by lia. reflexivity. }
  split; [|split].
  - intros dst. unfold zr_Read. do 2 f_equal.
    induction dst as [|d dst IH]; [reflexivity|]. cbn [map length repeat]. rewrite IH.
    reflexivity.
  - rewrite (GenerateKey_read c _ _ _ Hn Hlen Hread), Hk. reflexivity.
  - intros priv hash Hc Hh. subst c. eexists.
    rewrite (Sign_read _ _ priv hash _ Hh Hn Hlen Hread), Hk. reflexivity.
Qed.

Lemma zeroReader_fixes_the_scalar_witness :
  1 < elliptic.N (elliptic.Params sm2P256) /\
  GenerateKey sm2P256 zeroReader
  = (Ok {| Public := {| Curve := sm2P256;
                        X := fst (elliptic.ScalarBaseMult sm2P256 [Byte.x01]);
                        Y := snd (elliptic.ScalarBaseMult sm2P256 [Byte.x01]) |};
           D := 1 |}, zeroReader).
Proof.
  assert (H1 : 1 < elliptic.N (elliptic.Params sm2P256)) by (vm_compute; reflexivity).
  assert (H2 : 0 <= elliptic.BitSize (elliptic.Params sm2P256)) by (vm_compute; discriminate).
  split; [exact H1|].
  exact (proj1 (proj2 (zeroReader_fixes_the_scalar sm2P256 H1 H2))).
Defined.

(** ** Key and nonce from one stream *)

(** X12: GenerateKey and Sign consume consecutive blocks of the same
    stream. With L = BitSize/8 + 8, a stream b1 ++ b2 ++ rest with
    |b1| = |b2| = L gives a key whose D comes from b1 alone, leaves
    b2 ++ rest, and a following Sign takes its nonce from b2 alone and
    leaves rest. *)
Theorem key_and_nonce_from_consecutive_blocks (c : elliptic.Curve)
    (b1 b2 rest hash : list byte) :
  let n := elliptic.N (elliptic.Params c) in
  let L := Z.quot (elliptic.BitSize (elliptic.Params c)) 8 + 8 in
  1 < n -> 0 <= L ->
  Z.of_nat (length b1) = L -> Z.of_nat (length b2) = L ->
  (32 <= length hash)%nat ->
  exists (priv : PrivateKey) (s : Z),
    GenerateKey c (io.Stream (b1 ++ b2 ++ rest)) = (Ok priv, io.Stream (b2 ++ rest)) /\
    D priv = big.SetBytes b1 mod (n - 1) + 1 /\
    Sign (io.Stream (b2 ++ rest)) priv hash
    = (Ok ((big.SetBytes (firstn 32 hash)
            + fst (elliptic.ScalarBaseMult c
                     (big.Bytes (big.SetBytes b2 mod (n - 1) + 1)))) mod n, s),
       io.Stream rest).
Proof.
  intros n L Hn HL H1 H2 Hh.
  assert (Hr1 : io.ReadFull (io.Stream (b1 ++ b2 ++ rest)) (Z.to_nat (randLen c))
                = (Ok b1, io.Stream (b2 ++ rest))).
  { change (randLen c) with L. rewrite <- H1, Nat2Z.id. apply ReadFull_block. }
  assert (Hr2 : io.ReadFull (io.Stream (b2 ++ rest)) (Z.to_nat (randLen c))
                = (Ok b2, io.Stream rest)).
  { change (randLen c) with L. rewrite <- H2, Nat2Z.id. apply ReadFull_block. }
  eexists. eexists. split; [|split].
  - apply (GenerateKey_read c _ _ b1 Hn HL Hr1).
  - reflexivity.
  - cbn [Public Curve D].
    match goal with |- Sign _ ?p _ = _ =>
      rewrite (Sign_read _ _ p hash b2 Hh Hn HL Hr2) end.
    reflexivity.
Qed.

Lemma key_and_nonce_from_consecutive_blocks_witness :
  exists (priv : PrivateKey) (s : Z),
    GenerateKey smallCurve
      (io.Stream ((repeat Byte.x00 7 ++ [Byte.x06]) ++ (repeat Byte.x00 7 ++ [Byte.x04])
                  ++ [Byte.xee]))
    = (Ok priv, io.Stream ((repeat Byte.x00 7 ++ [Byte.x04]) ++ [Byte.xee])) /\
    D priv = big.SetBytes (repeat Byte.x00 7 ++ [Byte.x06]) mod (19 - 1) + 1 /\
    Sign (io.Stream ((repeat Byte.x00 7 ++ [Byte.x04]) ++ [Byte.xee])) priv smallDigest
    = (Ok ((big.SetBytes (firstn 32 smallDigest)
            + fst (elliptic.ScalarBaseMult smallCurve
                     (big.Bytes (big.SetBytes (repeat Byte.x00 7 ++ [Byte.x04])
                                 mod (19 - 1) + 1)))) mod 19, s),
       io.Stream [Byte.xee]).
Proof.
  assert (H1 : 1 < elliptic.N (elliptic.Params smallCurve)) by (vm_compute; reflexivity).
  assert (H2 : 0 <= Z.quot (elliptic.BitSize (elliptic.Params smallCurve)) 8 + 8)
    by (vm_compute; discriminate).
  assert (H3 : (32 <= length smallDigest)%nat) by (vm_compute; lia).
  exact (key_and_nonce_from_consecutive_blocks smallCurve
           (repeat Byte.x00 7 ++ [Byte.x06]) (repeat Byte.x00 7 ++ [Byte.x04])
           [Byte.xee] smallDigest H1 H2 eq_refl eq_refl H3).
Defined.

(** ** What the decoder accepts *)

Lemma parseLongLength_bound (nb : nat) (acc len : Z) (bytes rest : list byte) :
  0 <= acc < 2 ^ 31 ->
  asn1.parseLongLength nb acc bytes = Ok (len, rest) ->
  len < 2 ^ 31.
Proof.
  revert acc bytes. induction nb as [|nb IH]; intros acc bytes Hacc H.
  - cbn [asn1.parseLongLength] in H. injection H as <- _. lia.
  - cbn [asn1.parseLongLength] in H. destruct bytes as [|b bytes]; [discriminate|].
    change (Z.shiftl 1 23) with 8388608 in H.
    destruct (Z.geb_spec acc 8388608) as [|Hsmall]; [discriminate|].
    pose proof (byte_val_range b) as Hb.
    rewrite lor_shiftl_byte in H by lia.
    destruct (acc * 256 + byte_val b =? 0); [discriminate|].
    apply (IH (acc * 256 + byte_val b) bytes); [|exact H].
    change (2 ^ 31) with 2147483648. lia.
Qed.

Lemma parseTagAndLength_bound (bytes rest : list byte) (t : asn1.tagAndLength) :
  asn1.parseTagAndLength bytes = Ok (t, rest) ->
  Z.of_nat (asn1.length t) < 2 ^ 31.
Proof.
  unfold asn1.parseTagAndLength. destruct bytes as [|b1 bytes]; [discriminate|].
  destruct (Z.land (byte_val b1) 31 =? 31); [discriminate|].
  destruct bytes as [|b2 bytes]; [discriminate|].
  destruct (Z.land (byte_val b2) 128 =? 0).
  - intros [= <- _]. cbn [asn1.length].
    change 127 with (Z.ones 7). rewrite Z.land_ones by lia.
    pose proof (Z.mod_pos_bound (byte_val b2) (2 ^ 7) ltac:(lia)).
    rewrite Z2Nat.id by lia. change (2 ^ 7) with 128 in *.
    change (2 ^ 31) with 2147483648. lia.
  - destruct (_ =? 0)%nat; [discriminate|].
    destruct (asn1.parseLongLength _ 0 bytes) as [[len rest'] | e | w] eqn:EL;
      cbn [bind]; try discriminate.
    destruct (Z.ltb_spec len 128) as [|Hlong]; [discriminate|].
    intros [= <- _]. cbn [asn1.length].
    apply parseLongLength_bound in EL; [|change (2 ^ 31) with 2147483648; lia].
    rewrite Z2Nat.id by lia. exact EL.
Qed.

Lemma parseHeader_bound (tg : Z) (cmp : bool) (bytes inner rest : list byte) :
  asn1.parseHeader tg cmp bytes = Ok (inner, rest) ->
  Z.of_nat (length inner) < 2 ^ 31.
Proof.
  unfold asn1.parseHeader.
  destruct (asn1.parseTagAndLength bytes) as [[t rest0] | e | w] eqn:ET;
    cbn [bind]; try discriminate.
  destruct (_ || _); [discriminate|].
  destruct (Nat.ltb_spec (length rest0) (asn1.length t)) as [|Hlen]; [discriminate|].
  intros [= <- _]. rewrite firstn_length_le by assumption.
  apply (parseTagAndLength_bound bytes rest0 t ET).
Qed.

(** X13: the decoder behind PublicKey.Verify accepts exactly the
    envelopes. Unmarshal returns the pair (R, S) and the rest exactly
    when the input is the SEQUENCE header, the minimal INTEGER
    encodings of R and S, any extra bytes inside the SEQUENCE, and then
    the rest, with fewer than 2^31 bytes inside the SEQUENCE; so the
    encodings of R and S it accepts are unique. *)
Theorem Unmarshal_accepts_exactly_envelopes (sign rest : list byte) (sig : sm2Signature) :
  asn1.Unmarshal sign = Ok (sig, rest) <->
  exists extra : list byte,
    sign = envelope (R sig) (S sig) extra ++ rest /\
    Z.of_nat (length (asn1.marshalBigInt (R sig) ++ asn1.marshalBigInt (S sig) ++ extra))
    < 2 ^ 31.
Proof.
  split.
  - intros HU. unfold asn1.Unmarshal in HU.
    destruct (asn1.parseHeader asn1.TagSequence true sign)
      as [[inner rest0] | e | w] eqn:EH; cbn [bind] in HU; try discriminate.
    destruct (asn1.parseBigIntField inner) as [[r inner1] | e | w] eqn:ER;
      cbn [bind] in HU; try discriminate.
    destruct (asn1.parseBigIntField inner1) as [[s extra] | e | w] eqn:ES;
      cbn [bind] in HU; try discriminate.
    injection HU as <- <-. cbn [R S]. exists extra.
    pose proof (parseHeader_bound _ _ _ _ _ EH) as Hb.
    apply parseHeader_inv in EH. apply parseBigIntField_inv in ER, ES.
    rewrite <- ES, <- ER. split; [|exact Hb].
    unfold envelope. rewrite <- ES, <- ER, <- app_assoc. exact EH.
  - intros (extra & -> & Hsize). destruct sig as [r s]. cbn [R S] in *.
    apply Unmarshal_envelope. exact Hsize.
Qed.

Lemma Unmarshal_accepts_exactly_envelopes_witness :
  asn1.Unmarshal [Byte.x30; Byte.x07; Byte.x02; Byte.x01; Byte.x01;
                  Byte.x02; Byte.x01; Byte.x02; Byte.xaa; Byte.xbb]
  = Ok ({| R := 1; S := 2 |}, [Byte.xbb]) /\
  exists extra : list byte,
    [Byte.x30; Byte.x07; Byte.x02; Byte.x01; Byte.x01;
     Byte.x02; Byte.x01; Byte.x02; Byte.xaa; Byte.xbb]
    = envelope 1 2 extra ++ [Byte.xbb] /\
    Z.of_nat (length (asn1.marshalBigInt 1 ++ asn1.marshalBigInt 2 ++ extra)) < 2 ^ 31.
Proof.
  assert (H : asn1.Unmarshal [Byte.x30; Byte.x07; Byte.x02; Byte.x01; Byte.x01;
                              Byte.x02; Byte.x01; Byte.x02; Byte.xaa; Byte.xbb]
              = Ok ({| R := 1; S := 2 |}, [Byte.xbb])) by (vm_compute; reflexivity).
  split; [exact H|].
  exact (proj1 (Unmarshal_accepts_exactly_envelopes _ _ _) H).
Defined.

Lemma Ok_inj (A : Type) (a b : A) : Ok a = Ok b -> a = b.
Proof.
  intros [= ->]. reflexivity.
Qed.

(** X14: distinct pairs have distinct envelopes. If Marshal writes the
    same bytes for two pairs (each shorter than 2^31 bytes inside the
    SEQUENCE), the pairs are equal; this holds for all integers,
    negative ones and zero included. *)
Theorem Marshal_injective (a b : sm2Signature) :
  Z.of_nat (length (asn1.marshalBigInt (R a) ++ asn1.marshalBigInt (S a))) < 2 ^ 31 ->
  Z.of_nat (length (asn1.marshalBigInt (R b) ++ asn1.marshalBigInt (S b))) < 2 ^ 31 ->
  asn1.Marshal a = asn1.Marshal b ->
  a = b.
Proof.
  intros Ha Hb HM. destruct a as [r1 s1], b as [r2 s2]. cbn [R S] in *.
  rewrite !Marshal_envelope in HM. apply Ok_inj in HM.
  assert (H1 : asn1.Unmarshal (envelope r1 s1 [] ++ [])
               = Ok ({| R := r1; S := s1 |}, []))
    by (apply Unmarshal_envelope; rewrite app_nil_r; exact Ha).
  assert (H2 : asn1.Unmarshal (envelope r2 s2 [] ++ [])
               = Ok ({| R := r2; S := s2 |}, []))
    by (apply Unmarshal_envelope; rewrite app_nil_r; exact Hb).
  rewrite HM, H2 in H1. apply Ok_inj in H1. injection H1 as -> ->. reflexivity.
Qed.

Lemma Marshal_injective_witness :
  asn1.Marshal {| R := -1; S := 255 |} = asn1.Marshal {| R := -1; S := 200 + 55 |} /\
  {| R := -1; S := 255 |} = {| R := -1; S := 200 + 55 |}.
Proof.
  assert (Ha : Z.of_nat (length (asn1.marshalBigInt (R {| R := -1; S := 255 |})
                 ++ asn1.marshalBigInt (S {| R := -1; S := 255 |}))) < 2 ^ 31)
    by (vm_compute; reflexivity).
  assert (Hb : Z.of_nat (length (asn1.marshalBigInt (R {| R := -1; S := 200 + 55 |})
                 ++ asn1.marshalBigInt (S {| R := -1; S := 200 + 55 |}))) < 2 ^ 31)
    by (vm_compute; reflexivity).
  assert (HM : asn1.Marshal {| R := -1; S := 255 |}
               = asn1.Marshal {| R := -1; S := 200 + 55 |}) by (vm_compute; reflexivity).
  split; [exact HM|].
  exact (Marshal_injective _ _ Ha Hb HM).
Defined.

(** ** Digests modulo n, and a repeated nonce *)

(** X15: Sign uses the digest only through the integer of its first
    32 bytes modulo n: with the same reader and key, two digests whose
    first 32 bytes are congruent modulo n (for instance E and E + n)
    get the same signature and leave the reader in the same state. *)
Theorem Sign_digest_modulo_order (rand : io.Reader) (priv : PrivateKey)
    (h1 h2 : list byte) :
  let n := elliptic.N (elliptic.Params (Curve (Public priv))) in
  0 < n ->
  (32 <= length h1)%nat -> (32 <= length h2)%nat ->
  big.SetBytes (firstn 32 h1) mod n = big.SetBytes (firstn 32 h2) mod n ->
  Sign rand priv h1 = Sign rand priv h2.
Proof.
  intros n Hn H1 H2 Hcong. rewrite !Sign_unfold by assumption. f_equal.
  destruct (fst (generateRandK rand (Curve (Public priv)))) as [[k|] | e | w];
    try reflexivity.
  cbn [bind]. rewrite !signWith_Some by (fold n; lia). fold n.
  rewrite (Z.add_mod (big.SetBytes (firstn 32 h1))),
          (Z.add_mod (big.SetBytes (firstn 32 h2))) by lia.
  rewrite Hcong. reflexivity.
Qed.

Lemma Sign_digest_modulo_order_witness :
  digestOne <> big.Bytes (elliptic.N sm2P256Params + 1) /\
  (32 <= length digestOne)%nat /\
  (32 <= length (big.Bytes (elliptic.N sm2P256Params + 1)))%nat /\
  Sign nonceThree keyOne digestOne
  = Sign nonceThree keyOne (big.Bytes (elliptic.N sm2P256Params + 1)).
Proof.
  assert (H0 : 0 < elliptic.N (elliptic.Params (Curve (Public keyOne))))
    by (vm_compute; reflexivity).
  assert (H1 : (32 <= length digestOne)%nat) by (vm_compute; lia).
  assert (H2 : (32 <= length (big.Bytes (elliptic.N sm2P256Params + 1)))%nat)
    by (vm_compute; lia).
  assert (H3 : big.SetBytes (firstn 32 digestOne)
               mod elliptic.N (elliptic.Params (Curve (Public keyOne)))
               = big.SetBytes (firstn 32 (big.Bytes (elliptic.N sm2P256Params + 1)))
                 mod elliptic.N (elliptic.Params (Curve (Public keyOne))))
    by (vm_compute; reflexivity).
  split; [vm_compute; discriminate|]. split; [exact H1|]. split; [exact H2|].
  exact (Sign_digest_modulo_order nonceThree keyOne digestOne
           (big.Bytes (elliptic.N sm2P256Params + 1)) H0 H1 H2 H3).
Defined.

(** X16: a repeated nonce ties the two signatures to the private key.
    When two Sign calls with the same key read the same bytes (as
    every call does with zeroReader), n is prime and 1 + D is not a
    multiple of n, the returned pairs satisfy
    D * ((R1 + S1) - (R2 + S2)) = S2 - S1 (mod n). *)
Theorem Sign_repeated_nonce_relation (rand rand' : io.Reader) (priv : PrivateKey)
    (h1 h2 b : list byte) (r1 s1 r2 s2 : Z) :
  let c := Curve (Public priv) in
  let n := elliptic.N (elliptic.Params c) in
  Z.prime n ->
  (1 + D priv) mod n <> 0 ->
  0 <= Z.quot (elliptic.BitSize (elliptic.Params c)) 8 + 8 ->
  io.ReadFull rand (Z.to_nat (Z.quot (elliptic.BitSize (elliptic.Params c)) 8 + 8))
  = (Ok b, rand') ->
  Sign rand priv h1 = (Ok (r1, s1), rand') ->
  Sign rand priv h2 = (Ok (r2, s2), rand') ->
  (D priv * ((r1 + s1) - (r2 + s2))) mod n = (s2 - s1) mod n.
Proof.
  intros c n Hp Hinv Hlen Hread HS1 HS2. pose proof Hp as [Hn _].
  set (k := scalarOf c b).
  assert (Heq : forall (h : list byte) (r s : Z),
             Sign rand priv h = (Ok (r, s), rand') ->
             eqm n (s * (1 + D priv)) (k - r * D priv)).
  { intros h r s HS.
    destruct (Sign_Ok rand rand' priv h r s HS) as (Hh & _).
    rewrite (Sign_read rand rand' priv h b Hh Hn Hlen Hread) in HS.
    fold c in HS. fold n in HS. fold k in HS.
    apply (f_equal fst) in HS. cbn [fst] in HS.
    apply Ok_pair_inj in HS. destruct HS as [Er Es].
    pose proof (ModInverse_prime n (D priv) Hp) as HM. cbv zeta in HM.
    destruct HM as [[Hz _] | Hi]; [contradiction|].
    set (i := big.ModInverse ((1 + D priv) mod n) ((1 + D priv) mod n) n) in *.
    rewrite Er in Es.
    assert (Hs : eqm n s ((k - (r * D priv) mod n) mod n * i))
      by (rewrite <- Es; apply Zmod_eqm).
    assert (Hs1 : eqm n ((k - (r * D priv) mod n) mod n) (k - r * D priv)).
    { rewrite Zmod_eqm. rewrite Zmod_eqm. reflexivity. }
    assert (Hs2 : eqm n ((1 + D priv) mod n) (1 + D priv)) by apply Zmod_eqm.
    assert (Hi' : eqm n (i * ((1 + D priv) mod n)) 1) by exact Hi.
    rewrite Hs, Hs1. rewrite <- Hs2.
    replace ((k - r * D priv) * i * ((1 + D priv) mod n))
      with ((k - r * D priv) * (i * ((1 + D priv) mod n))) by ring.
    rewrite Hi'. replace ((k - r * D priv) * 1) with (k - r * D priv) by ring.
    reflexivity. }
  pose proof (Heq h1 r1 s1 HS1) as E1. pose proof (Heq h2 r2 s2 HS2) as E2.
  change (eqm n (D priv * (r1 + s1 - (r2 + s2))) (s2 - s1)).
  replace (D priv * (r1 + s1 - (r2 + s2)))
    with ((s1 * (1 + D priv) + r1 * D priv) - (s2 * (1 + D priv) + r2 * D priv) + (s2 - s1))
    by ring.
  rewrite E1, E2.
  replace (k - r1 * D priv + r1 * D priv - (k - r2 * D priv + r2 * D priv) + (s2 - s1))
    with (s2 - s1) by ring.
  reflexivity.
Qed.

Lemma Sign_repeated_nonce_relation_witness :
  Sign smallNonceReader smallKey smallDigest = (Ok (18, 11), io.Stream []) /\
  Sign smallNonceReader smallKey (repeat Byte.x02 32) = (Ok (8, 15), io.Stream []) /\
  (7 * ((18 + 11) - (8 + 15))) mod 19 = (15 - 11) mod 19.
Proof.
  assert (H1 : Z.prime (elliptic.N (elliptic.Params (Curve (Public smallKey)))))
    by exact prime_19.
  assert (H2 : (1 + D smallKey) mod elliptic.N (elliptic.Params (Curve (Public smallKey)))
               <> 0) by (vm_compute; discriminate).
  assert (H3 : 0 <= Z.quot (elliptic.BitSize
                 (elliptic.Params (Curve (Public smallKey)))) 8 + 8)
    by (vm_compute; discriminate).
  assert (H4 : io.ReadFull smallNonceReader
                 (Z.to_nat (Z.quot (elliptic.BitSize
                    (elliptic.Params (Curve (Public smallKey)))) 8 + 8))
               = (Ok (repeat Byte.x00 7 ++ [Byte.x04]), io.Stream []))
    by (vm_compute; reflexivity).
  assert (H5 : Sign smallNonceReader smallKey smallDigest = (Ok (18, 11), io.Stream []))
    by (vm_compute; reflexivity).
  assert (H6 : Sign smallNonceReader smallKey (repeat Byte.x02 32)
               = (Ok (8, 15), io.Stream [])) by (vm_compute; reflexivity).
  split; [exact H5|]. split; [exact H6|].
  exact (Sign_repeated_nonce_relation smallNonceReader (io.Stream []) smallKey
           smallDigest (repeat Byte.x02 32) (repeat Byte.x00 7 ++ [Byte.x04])
           18 11 8 15 H1 H2 H3 H4 H5 H6).
Defined.
